(** * StringZilla Python binding: views, slicing and splitting

    A shallow embedding of [stringzilla/pybind11.cpp]: the slice resolvers
    [unsigned_slice] and [unsigned_offset], the view classes built on
    [span_t], and the [split]/[splitlines] engine, followed by the
    properties the specification states about them. *)

From Stdlib Require Import ZArith Lia.
From Stdlib.Strings Require Import Byte.
From Stdlib.Strings Require Import String.
From stdpp Require Import base list.

Local Open Scope Z_scope.

(** ** Machine integers

    [size_t] and [ssize_t] are 64 bits wide.  Both are carried as [Z]; the
    two conversions below are the wrap-around of [static_cast]. *)

Definition size_modulus : Z := 2 ^ 64.
Definition size_max_k : Z := 2 ^ 64 - 1.
Definition ssize_max_k : Z := 2 ^ 63 - 1.

(** [static_cast<size_t>(z)] *)
Definition to_size (z : Z) : Z := z mod size_modulus.

(** [static_cast<ssize_t>(z)] *)
Definition to_ssize (z : Z) : Z := (z + 2 ^ 63) mod size_modulus - 2 ^ 63.

(** ** Outcomes of a call

    A call returns a value, throws one of the two C++ exceptions the file
    raises, or runs into undefined behaviour (an access outside a vector or
    outside the owner's bytes). *)

Inductive exception : Set :=
| invalid_argument
| out_of_range.

Inductive result (A : Type) : Type :=
| Ok (a : A)
| Throw (e : exception)
| Undefined.

Arguments Ok {A} a.
Arguments Throw {A} e.
Arguments Undefined {A}.

Definition bind {A B : Type} (c : result A) (k : A -> result B) : result B :=
  match c with
  | Ok a => k a
  | Throw e => Throw e
  | Undefined => Undefined
  end.

Notation "'let*' x ':=' c 'in' k" := (bind c (fun x => k))
  (at level 10, x pattern, c at level 100, k at level 200).

(** ** Spans and the memory they point into *)

Record span_t : Set := { ptr : Z; len : Z }.

Definition nullptr : Z := 0.

(** [span_t {}] *)
Definition empty_span : span_t := {| ptr := nullptr; len := 0 |}.

(** The bytes of one owner ([py_str_t::copy_] or the range mapped by
    [py_file_t]), placed at address [base]. *)
Record buffer : Type := { base : Z; bytes : list byte }.

Definition buffer_size (m : buffer) : Z := Z.of_nat (length (bytes m)).

(** A span lies inside a buffer: the view invariant
    [start_offset + length <= owner.length]. *)
Definition in_bounds (m : buffer) (s : span_t) : Prop :=
  base m <= ptr s /\ 0 <= len s /\ ptr s + len s <= base m + buffer_size m.

Definition in_boundsb (m : buffer) (s : span_t) : bool :=
  (base m <=? ptr s) && (0 <=? len s) && (ptr s + len s <=? base m + buffer_size m).

(** Reading the bytes of a span.  Reading no byte is always fine; reading
    outside the owner's bytes is undefined. *)
Definition load (m : buffer) (s : span_t) : result (list byte) :=
  if len s =? 0 then Ok []
  else if in_boundsb m s
       then Ok (take (Z.to_nat (len s)) (drop (Z.to_nat (ptr s - base m)) (bytes m)))
       else Undefined.

(** ** Slice index resolver *)

Record index_span_t : Set := { offset : Z; length_ : Z }.

Definition unsigned_slice (length start end_ : Z) : result index_span_t :=
  if (start <? 0) || (end_ <? 0) then Throw invalid_argument
  else
    let start := Z.min start (to_ssize length) in
    let end_ := Z.min end_ (to_ssize length) in
    Ok {| offset := to_size start; length_ := to_size (end_ - start) |}.

Definition unsigned_offset (length idx : Z) : result Z :=
  if 0 <=? idx then
    if length <? to_size idx then Throw out_of_range
    else Ok (to_size idx)
  else
    if length <? to_size (- idx) then Throw out_of_range
    else Ok (to_size (length + idx)).

Definition subspan (span : span_t) (start end_ : Z) : result span_t :=
  let* index_span := unsigned_slice (len span) start end_ in
  Ok {| ptr := ptr span + offset index_span; len := length_ index_span |}.

(** ** Search kernels

    [count_substr] and [find_substr] forward to the [strzl_*] kernels of
    [stringzilla.h]; the AVX2 and NEON variants are selected at compile time
    and the naive ones are the fallback. *)

(** Modelled from the spec: [strzl_naive_find_char] of [stringzilla.h] is
    not among the sources.  It returns the offset of the first occurrence of
    the byte, or the length of the haystack as the "not found" sentinel. *)
Fixpoint find_byte_in (t : list byte) (c : byte) : nat :=
  match t with
  | [] => O
  | b :: t' => if Byte.eqb b c then O else S (find_byte_in t' c)
  end.

(** Modelled from the spec: [strzl_naive_find_char] on a haystack in memory,
    the scan above run on the bytes of the haystack. *)
Definition strzl_naive_find_char (m : buffer) (h : span_t) (n : byte) : result Z :=
  let* t := load m h in
  Ok (Z.of_nat (find_byte_in t n)).

(** Modelled from the spec: [strzl_naive_find_substr] of [stringzilla.h] is
    not among the sources.  It returns the offset of the first occurrence of
    the pattern, or the length of the haystack as the "not found" sentinel.
    [starts_with t n] tells whether the pattern [n] occurs at the head of
    [t]. *)
Fixpoint starts_with (t n : list byte) {struct n} : bool :=
  match n with
  | [] => true
  | c :: n' =>
      match t with
      | [] => false
      | b :: t' => Byte.eqb b c && starts_with t' n'
      end
  end.

(** Modelled from the spec: the scan of [strzl_naive_find_substr], the
    first position from which the haystack starts with the pattern. *)
Fixpoint find_seq_in (t n : list byte) : nat :=
  match t with
  | [] => O
  | _ :: t' => if starts_with t n then O else S (find_seq_in t' n)
  end.

(** Modelled from the spec: [strzl_naive_find_substr] on a haystack in
    memory. *)
Definition strzl_naive_find_substr (m : buffer) (h : span_t) (n : list byte) : result Z :=
  let* t := load m h in
  Ok (Z.of_nat (find_seq_in t n)).

(** Modelled from the spec: [strzl_naive_count_char] of [stringzilla.h] is
    not among the sources.  It returns the number of occurrences of the
    byte. *)
Fixpoint count_byte_in (t : list byte) (c : byte) : nat :=
  match t with
  | [] => O
  | b :: t' => (if Byte.eqb b c then 1 else 0) + count_byte_in t' c
  end%nat.

(** Modelled from the spec: [strzl_naive_count_char] on a haystack in
    memory. *)
Definition strzl_naive_count_char (m : buffer) (h : span_t) (n : byte) : result Z :=
  let* t := load m h in
  Ok (Z.of_nat (count_byte_in t n)).

(** Modelled from the spec: [strzl_naive_count_substr] of [stringzilla.h] is
    not among the sources.  Without overlap, occurrences are counted by
    skipping past each match; with overlap, every start position counts. *)
Fixpoint count_seq_in (fuel : nat) (t n : list byte) (overlap : bool) : nat :=
  match fuel with
  | O => O
  | S fuel' =>
      let off := find_seq_in t n in
      if (off <? length t)%nat
      then S (count_seq_in fuel' (drop (off + if overlap then 1 else length n) t) n overlap)
      else O
  end.

(** Modelled from the spec: [strzl_naive_count_substr] on a haystack in
    memory. *)
Definition strzl_naive_count_substr (m : buffer) (h : span_t) (n : list byte)
    (overlap : bool) : result Z :=
  let* t := load m h in
  Ok (Z.of_nat (count_seq_in (length t) t n overlap)).

Definition count_substr_char (m : buffer) (h_span : span_t) (n : byte) : result Z :=
  strzl_naive_count_char m h_span n.

Definition count_substr (m : buffer) (h_span : span_t) (n_span : list byte)
    (overlap : bool) : result Z :=
  strzl_naive_count_substr m h_span n_span overlap.

Definition find_substr_char (m : buffer) (h_span : span_t) (n : byte) : result Z :=
  strzl_naive_find_char m h_span n.

Definition find_substr (m : buffer) (h_span : span_t) (n_span : list byte) : result Z :=
  strzl_naive_find_substr m h_span n_span.

(** ** The view classes

    [py_str_t] and [py_file_t] own their bytes; a [py_subspan_t] holds a
    shared pointer [parent_] to the object it was cut from.  The objects are
    immutable once built, so the shared pointer is carried as the object it
    points to. *)

Inductive py_span_t : Type :=
| py_str_t (copy_ : buffer)
| py_file_t (mapped : buffer)
| py_subspan_t (parent_ : py_span_t) (str : span_t).

(** [py_span_t::span] *)
Definition span (v : py_span_t) : span_t :=
  match v with
  | py_str_t b | py_file_t b => {| ptr := base b; len := buffer_size b |}
  | py_subspan_t _ str => str
  end.

(** The owner at the end of the [parent_] chain: the memory the view reads. *)
Fixpoint owner (v : py_span_t) : buffer :=
  match v with
  | py_str_t b | py_file_t b => b
  | py_subspan_t p _ => owner p
  end.

(** [py_span_t::size] *)
Definition size (v : py_span_t) : Z := to_ssize (len (span v)).

(** [std::string_view::size] and [front] on a needle or separator. *)
Definition sv_size (s : list byte) : Z := Z.of_nat (length s).
Definition front (s : list byte) : byte := hd x00 s.

(** [py_span_t::after_n] *)
Definition after_n (v : py_span_t) (offset : Z) : span_t :=
  if offset <? len (span v)
  then {| ptr := ptr (span v) + offset; len := len (span v) - offset |}
  else empty_span.

(** [py_span_t::at] *)
Definition byte_at (v : py_span_t) (offset : Z) : result byte :=
  let* i := unsigned_offset (len (span v)) offset in
  let* b := load (owner v) {| ptr := ptr (span v) + i; len := 1 |} in
  Ok (hd x00 b).

(** [py_span_t::sub] *)
Definition sub (v : py_span_t) (start end_ : Z) : result py_span_t :=
  let* index_span := unsigned_slice (to_size (size v)) start end_ in
  Ok (py_subspan_t v {| ptr := ptr (span v) + offset index_span;
                        len := length_ index_span |}).

(** [py_span_t::contains] *)
Definition contains (v : py_span_t) (needle : list byte) (start end_ : Z) : result bool :=
  if sv_size needle =? 0 then Ok true
  else
    let* part := subspan (span v) start end_ in
    let* offset :=
      if sv_size needle =? 1
      then find_substr_char (owner v) part (front needle)
      else find_substr (owner v) part needle in
    Ok (negb (offset =? len part)).

(** [py_span_t::find] *)
Definition find (v : py_span_t) (needle : list byte) (start end_ : Z) : result Z :=
  if sv_size needle =? 0 then Ok 0
  else
    let* part := subspan (span v) start end_ in
    let* offset :=
      if sv_size needle =? 1
      then find_substr_char (owner v) part (front needle)
      else find_substr (owner v) part needle in
    Ok (if negb (offset =? len part) then to_ssize offset else -1).

(** [py_span_t::count] *)
Definition count (v : py_span_t) (needle : list byte) (start end_ : Z)
    (allowoverlap : bool) : result Z :=
  if sv_size needle =? 0 then Ok 0
  else
    let* part := subspan (span v) start end_ in
    let* result :=
      if sv_size needle =? 1
      then count_substr_char (owner v) part (front needle)
      else count_substr (owner v) part needle allowoverlap in
    Ok (to_ssize result).

(** ** Collections of parts *)

Record py_spans_t : Type := { whole_ : py_span_t; parts_ : list span_t }.

Definition vec_size (parts : list span_t) : Z := Z.of_nat (length parts).

(** [parts[i]] read and written through [operator[]]: outside the vector
    the access is undefined. *)
Definition vec_get (parts : list span_t) (i : Z) : result span_t :=
  if (0 <=? i) && (i <? vec_size parts)
  then match parts !! Z.to_nat i with Some p => Ok p | None => Undefined end
  else Undefined.

Definition vec_set (parts : list span_t) (i : Z) (x : span_t) : result (list span_t) :=
  if (0 <=? i) && (i <? vec_size parts)
  then Ok (<[Z.to_nat i := x]> parts)
  else Undefined.

(** [py_spans_t::size] *)
Definition spans_size (c : py_spans_t) : Z := to_ssize (vec_size (parts_ c)).

(** [py_spans_t::at] *)
Definition spans_at (c : py_spans_t) (i : Z) : result py_span_t :=
  let* k := unsigned_offset (to_size (spans_size c)) i in
  let* part := vec_get (parts_ c) k in
  Ok (py_subspan_t (whole_ c) part).

(** [py_spans_t::sub]: the iterator range must stay inside the vector. *)
Definition spans_sub (c : py_spans_t) (start end_ : Z) : result py_spans_t :=
  let* index_span := unsigned_slice (vec_size (parts_ c)) start end_ in
  if offset index_span + length_ index_span <=? vec_size (parts_ c)
  then Ok {| whole_ := whole_ c;
             parts_ := take (Z.to_nat (length_ index_span))
                            (drop (Z.to_nat (offset index_span)) (parts_ c)) |}
  else Undefined.

(** ** The split engine *)

(** One pass of the [for] loop of [splitlines], which runs
    [parts.size() - 1] times (not at all on an empty vector) with
    [i = 0, 1, ...]; [n] is the number of passes still to run. *)
Fixpoint splitlines_loop (n : nat) (v : py_span_t) (keeplinebreaks : bool)
    (separator : byte) (i : Z) (parts : list span_t) (last_start : Z)
    : result (list span_t * Z) :=
  match n with
  | O => Ok (parts, last_start)
  | S n' =>
      let remaining := after_n v last_start in
      let* offset_in_remaining := find_substr_char (owner v) remaining separator in
      let* parts :=
        vec_set parts i
          {| ptr := ptr (span v) + last_start;
             len := to_size (offset_in_remaining + Z.b2z keeplinebreaks) |} in
      splitlines_loop n' v keeplinebreaks separator (to_size (i + 1)) parts
        (to_size (last_start + to_size (offset_in_remaining + 1)))
  end.

(** [py_span_t::splitlines] *)
Definition splitlines (v : py_span_t) (keeplinebreaks : bool) (separator : byte)
    (maxsplit : Z) : result py_spans_t :=
  let* count_separators := count_substr_char (owner v) (span v) separator in
  let parts :=
    replicate (Z.to_nat (Z.min (to_size (count_separators + 1)) maxsplit)) empty_span in
  let* (parts, last_start) :=
    splitlines_loop (Z.to_nat (vec_size parts - 1)) v keeplinebreaks separator
      0 parts 0 in
  let* parts := vec_set parts count_separators (after_n v last_start) in
  Ok {| whole_ := v; parts_ := parts |}.

(** The [while] loop of [split].  [None] means the fuel ran out before the
    loop condition turned false. *)
Fixpoint split_loop (fuel : nat) (v : py_span_t) (separator : list byte)
    (maxsplit : Z) (keepseparator : bool)
    (parts : list span_t) (last_start : Z) (will_continue : bool)
    : option (result (list span_t * Z * bool)) :=
  if (last_start <? len (span v)) && (to_size (vec_size parts + 1) <? maxsplit) then
    match fuel with
    | O => None
    | S fuel' =>
        let remaining := after_n v last_start in
        match find_substr (owner v) remaining separator with
        | Ok offset_in_remaining =>
            let will_continue := negb (offset_in_remaining =? len remaining) in
            let part_len :=
              to_size (offset_in_remaining
                       + to_size (sv_size separator * Z.b2z keepseparator
                                  * Z.b2z will_continue)) in
            split_loop fuel' v separator maxsplit keepseparator
              (parts ++ [{| ptr := ptr remaining; len := part_len |}])
              (to_size (last_start + to_size (offset_in_remaining + sv_size separator)))
              will_continue
        | Throw e => Some (Throw e)
        | Undefined => Some Undefined
        end
    end
  else Some (Ok (parts, last_start, will_continue)).

(** The test that sends [split] to [splitlines]. *)
Definition split_delegates (separator : list byte) (maxsplit : Z) : bool :=
  (sv_size separator =? 1) && (maxsplit =? to_size ssize_max_k).

(** [py_span_t::split] *)
Definition split (fuel : nat) (v : py_span_t) (separator : list byte)
    (maxsplit : Z) (keepseparator : bool) : option (result py_spans_t) :=
  if split_delegates separator maxsplit
  then Some (splitlines v keepseparator (front separator) maxsplit)
  else
    match split_loop fuel v separator maxsplit keepseparator [] 0 true with
    | None => None
    | Some r =>
        Some (let* (parts, last_start, will_continue) := r in
              let parts :=
                if will_continue : bool then parts ++ [after_n v last_start] else parts in
              Ok {| whole_ := v; parts_ := parts |})
    end.

(** ** Reading views and parts back as bytes *)

Definition bytes_of (s : String.string) : list byte := String.list_byte_of_string s.

(** The bytes a span covers in a buffer. *)
Definition span_bytes (m : buffer) (s : span_t) : list byte :=
  take (Z.to_nat (len s)) (drop (Z.to_nat (ptr s - base m)) (bytes m)).

Definition content (v : py_span_t) : list byte := span_bytes (owner v) (span v).

Definition parts_bytes (c : py_spans_t) : list (list byte) :=
  map (span_bytes (owner (whole_ c))) (parts_ c).

(** A view whose span lies inside its owner, the owner being no larger than
    [ssize_t] can count. *)
Definition wf_view (v : py_span_t) : Prop :=
  in_bounds (owner v) (span v) /\ buffer_size (owner v) <= ssize_max_k.

(** Putting the removed separators back between the parts. *)
Fixpoint join (separator : list byte) (parts : list (list byte)) : list byte :=
  match parts with
  | [] => []
  | [p] => p
  | p :: ps => p ++ separator ++ join separator ps
  end.

Definition str (text : String.string) : py_span_t :=
  py_str_t {| base := 4096; bytes := bytes_of text |}.

(** The object a sub-view points back to, the owning object at the end of the
    chain of back-pointers, and the length of that chain. *)
Definition parent (v : py_span_t) : option py_span_t :=
  match v with
  | py_subspan_t p _ => Some p
  | _ => None
  end.

Fixpoint root (v : py_span_t) : py_span_t :=
  match v with
  | py_subspan_t p _ => root p
  | _ => v
  end.

Fixpoint depth (v : py_span_t) : nat :=
  match v with
  | py_subspan_t p _ => S (depth p)
  | _ => O
  end.

(** The needle [n] sits in the text [t] at position [i]. *)
Definition occurs_at (t n : list byte) (i : nat) : Prop :=
  take (length n) (drop i t) = n.

(** The bytes between the clamped bounds: the slice a search looks at. *)
Definition slice (v : py_span_t) (start end_ : Z) : list byte :=
  let s := Z.min start (len (span v)) in
  let e := Z.min end_ (len (span v)) in
  take (Z.to_nat (e - s)) (drop (Z.to_nat s) (content v)).

(** The needle [n] occurs in [t] at [i] and nowhere before. *)
Definition first_at (t n : list byte) (i : nat) : Prop :=
  occurs_at t n i /\ forall j, (j < i)%nat -> ~ occurs_at t n j.

(** The text ends exactly on a separator occurrence: scanning left to
    right, each separator located at its first occurrence in what remains,
    the [k]-th one located ends where the text ends. *)
Inductive ends_on_separator (separator : list byte) : list byte -> nat -> Prop :=
| ends_here t off :
    first_at t separator off ->
    (off + length separator = length t)%nat ->
    ends_on_separator separator t 1
| ends_later t off k :
    first_at t separator off ->
    (off + length separator < length t)%nat ->
    ends_on_separator separator (drop (off + length separator) t) k ->
    ends_on_separator separator t (S k).

(** What the parts give back: glued as they are when the separators were
    kept in them, with the separator put back in between otherwise. *)
Definition reassemble (keepseparator : bool) (separator : list byte)
    (parts : list (list byte)) : list byte :=
  if keepseparator then concat parts else join separator parts.

(** The cuts of a left-to-right scan of the text [t] placed at address [p]:
    a part up to each separator located in what remains, then what is left
    over, which is [span_t {}] once nothing is left.  Both loops of the
    engine are compared with it. *)
Fixpoint scan_parts (fuel : nat) (separator : list byte) (keep : bool)
    (p : Z) (t : list byte) : list span_t :=
  match t with
  | [] => [empty_span]
  | _ :: _ =>
      let off := find_seq_in t separator in
      if (off =? length t)%nat
      then [{| ptr := p; len := Z.of_nat (length t) |}]
      else
        match fuel with
        | O => []
        | S fuel' =>
            {| ptr := p; len := Z.of_nat off + sv_size separator * Z.b2z keep |}
            :: scan_parts fuel' separator keep
                 (p + Z.of_nat off + sv_size separator)
                 (drop (off + length separator) t)
        end
  end.

Definition scan (separator : list byte) (keep : bool) (p : Z) (t : list byte)
    : list span_t :=
  scan_parts (length t) separator keep p t.

(** ** Further members of the classes *)

(** [py_span_t::before_n] *)
Definition before_n (v : py_span_t) (tail : Z) : span_t :=
  if tail <? len (span v)
  then {| ptr := ptr (span v) + len (span v) - tail; len := len (span v) - tail |}
  else empty_span.

(** The [__contains__] operator bound in [define_slice_ops]. *)
Definition contains_operator (v : py_span_t) (needle : list byte) : result bool :=
  contains v needle 0 ssize_max_k.

(** [py_spans_t::iterator_t] with its comparison, dereference and
    pre-increment. *)
Record iterator_t : Type := { py_spans_ : py_spans_t; idx_ : Z }.

Definition spans_begin (c : py_spans_t) : iterator_t :=
  {| py_spans_ := c; idx_ := 0 |}.

Definition spans_end (c : py_spans_t) : iterator_t :=
  {| py_spans_ := c; idx_ := vec_size (parts_ c) |}.

Definition iterator_eq (a b : iterator_t) : bool := idx_ a =? idx_ b.

Definition iterator_deref (it : iterator_t) : result py_span_t :=
  spans_at (py_spans_ it) (to_ssize (idx_ it)).

Definition iterator_incr (it : iterator_t) : iterator_t :=
  {| py_spans_ := py_spans_ it; idx_ := to_size (idx_ it + 1) |}.

(** The walk a [for] loop makes over the range that [__iter__] hands to
    [py::make_iterator]: stop when the iterator equals [end_], else
    dereference and advance.  [None] means the fuel ran out. *)
Fixpoint spans_walk (fuel : nat) (it end_ : iterator_t)
    : option (result (list py_span_t)) :=
  if iterator_eq it end_ then Some (Ok [])
  else
    match fuel with
    | O => None
    | S fuel' =>
        match iterator_deref it with
        | Ok x =>
            match spans_walk fuel' (iterator_incr it) end_ with
            | Some (Ok xs) => Some (Ok (x :: xs))
            | other => other
            end
        | Throw e => Some (Throw e)
        | Undefined => Some Undefined
        end
    end.

(** [py_span_t::begin] and [py_span_t::end], and the same walk over the
    bytes of a view. *)
Definition view_begin (v : py_span_t) : Z := ptr (span v).
Definition view_end (v : py_span_t) : Z := view_begin v + len (span v).

Fixpoint view_walk (fuel : nat) (m : buffer) (it end_ : Z)
    : option (result (list byte)) :=
  if it =? end_ then Some (Ok [])
  else
    match fuel with
    | O => None
    | S fuel' =>
        match load m {| ptr := it; len := 1 |} with
        | Ok b =>
            match view_walk fuel' m (it + 1) end_ with
            | Some (Ok bs) => Some (Ok (hd x00 b :: bs))
            | other => other
            end
        | Throw e => Some (Throw e)
        | Undefined => Some Undefined
        end
    end.

(** A part is the empty [span_t {}] or lies inside the span of the view. *)
Definition part_in_view (v : py_span_t) (s : span_t) : Prop :=
  s = empty_span
  \/ (ptr (span v) <= ptr s /\ 0 <= len s
      /\ ptr s + len s <= ptr (span v) + len (span v)).

(** * Properties *)

(** ** Conversions *)

Lemma to_size_small z : 0 <= z < size_modulus -> to_size z = z.
Proof. intros H. unfold to_size. now apply Z.mod_small. Qed.

Lemma to_ssize_small z : - 2 ^ 63 <= z <= ssize_max_k -> to_ssize z = z.
Proof.
  unfold to_ssize, ssize_max_k, size_modulus. intros H.
  rewrite Z.mod_small; lia.
Qed.

Lemma to_size_range z : 0 <= to_size z < size_modulus.
Proof. unfold to_size, size_modulus. apply Z.mod_pos_bound. lia. Qed.

Lemma to_size_neg z : - size_modulus <= z < 0 -> to_size z = z + size_modulus.
Proof.
  intros H. unfold to_size.
  rewrite <- (Z_mod_plus_full z 1 size_modulus).
  apply Z.mod_small. lia.
Qed.

Ltac size_arith :=
  unfold ssize_max_k, size_max_k, size_modulus in *; lia.

Ltac bool_to_prop :=
  repeat match goal with
    | H : (_ =? _) = true |- _ => apply Z.eqb_eq in H
    | H : (_ =? _) = false |- _ => apply Z.eqb_neq in H
    | H : (_ <? _) = true |- _ => apply Z.ltb_lt in H
    | H : (_ <? _) = false |- _ => apply Z.ltb_ge in H
    | H : (_ <=? _) = true |- _ => apply Z.leb_le in H
    | H : (_ <=? _) = false |- _ => apply Z.leb_gt in H
    end.

Ltac absurd_arith := exfalso; bool_to_prop; size_arith.

Ltac fold_sizes :=
  repeat match goal with
    | |- context [to_ssize ?z] => rewrite (to_ssize_small z) by size_arith
    | |- context [to_size ?z] => rewrite (to_size_small z) by size_arith
    end.

(** ** The range resolver *)

Lemma unsigned_slice_negative length start end_ :
  start < 0 \/ end_ < 0 -> unsigned_slice length start end_ = Throw invalid_argument.
Proof.
  intros H. unfold unsigned_slice.
  destruct (start <? 0) eqn:E1; [reflexivity|].
  destruct (end_ <? 0) eqn:E2; [reflexivity|]. lia.
Qed.

(** On an ordered request both bounds clamp to the length. *)
Lemma unsigned_slice_ordered length start end_ :
  0 <= length <= ssize_max_k -> 0 <= start <= end_ ->
  unsigned_slice length start end_ =
    Ok {| offset := Z.min start length;
          length_ := Z.min end_ length - Z.min start length |}.
Proof.
  intros Hl Hs. unfold unsigned_slice.
  destruct (start <? 0) eqn:E1; [lia|].
  destruct (end_ <? 0) eqn:E2; [lia|]. simpl.
  now fold_sizes.
Qed.

Lemma unsigned_slice_ordered_in_range length start end_ s :
  0 <= length <= ssize_max_k -> 0 <= start <= end_ ->
  unsigned_slice length start end_ = Ok s ->
  0 <= offset s /\ 0 <= length_ s /\ offset s + length_ s <= length.
Proof.
  intros Hl Hs. rewrite unsigned_slice_ordered by assumption.
  intros [= <-]. simpl. lia.
Qed.

Lemma unsigned_slice_ordered_idempotent length start end_ s :
  0 <= length <= ssize_max_k -> 0 <= start <= end_ ->
  unsigned_slice length start end_ = Ok s ->
  unsigned_slice (length_ s) 0 (length_ s) = Ok {| offset := 0; length_ := length_ s |}
  /\ unsigned_slice length (offset s) (offset s + length_ s) = Ok s.
Proof.
  intros Hl Hs. rewrite unsigned_slice_ordered by assumption.
  intros [= <-]. simpl. split.
  - rewrite unsigned_slice_ordered by size_arith. do 2 f_equal; lia.
  - rewrite unsigned_slice_ordered by size_arith. do 2 f_equal; lia.
Qed.

(** On a reversed request the difference of the clamped bounds is negative
    and its conversion to [size_t] wraps around. *)
Lemma unsigned_slice_reversed length start end_ :
  0 <= length <= ssize_max_k -> 0 <= end_ -> end_ < start -> end_ < length ->
  unsigned_slice length start end_ =
    Ok {| offset := Z.min start length;
          length_ := size_modulus - (Z.min start length - end_) |}.
Proof.
  intros Hl He Hlt Hel. unfold unsigned_slice.
  destruct (start <? 0) eqn:E1; [lia|].
  destruct (end_ <? 0) eqn:E2; [lia|]. simpl.
  fold_sizes. rewrite (Z.min_l end_ length) by lia.
  rewrite to_size_neg by size_arith. do 2 f_equal. lia.
Qed.

(** C1 (the code departs from the claim): when [end_] lies below both
    [start] and the length, the resolver does not return the empty range
    [max(0, end - start)].  The subtraction [end - start] is negative and its
    conversion to [size_t] wraps around, so the returned length is
    [2^64 - (clamped_start - end)] and offset plus length exceeds the length
    resolved against. *)
Theorem unsigned_slice_reversed_wraps length start end_ :
  0 <= length <= ssize_max_k -> 0 <= end_ -> end_ < start -> end_ < length ->
  exists s, unsigned_slice length start end_ = Ok s
    /\ offset s = Z.min start length
    /\ length_ s = size_modulus - (Z.min start length - end_)
    /\ length_ s <> Z.max 0 (Z.min end_ length - Z.min start length)
    /\ length < offset s + length_ s.
Proof.
  intros Hl He Hlt Hel. eexists. split.
  - now apply unsigned_slice_reversed.
  - simpl. repeat split; size_arith.
Qed.

Lemma unsigned_slice_reversed_wraps_witness :
  exists s, unsigned_slice 10 5 2 = Ok s
    /\ offset s = Z.min 5 10
    /\ length_ s = size_modulus - (Z.min 5 10 - 2)
    /\ length_ s <> Z.max 0 (Z.min 2 10 - Z.min 5 10)
    /\ 10 < offset s + length_ s.
Proof.
  apply (unsigned_slice_reversed_wraps 10 5 2); unfold ssize_max_k; lia.
Defined.

(** ** Sub-views *)

Lemma wf_view_len v : wf_view v -> 0 <= len (span v) <= ssize_max_k.
Proof. intros [(? & ? & ?) ?]. lia. Qed.

Lemma size_wf v : wf_view v -> to_size (size v) = len (span v).
Proof.
  intros H. pose proof (wf_view_len v H). unfold size. now fold_sizes.
Qed.

Lemma wf_view_owner b : buffer_size b <= ssize_max_k -> wf_view (py_str_t b).
Proof. intros H. unfold wf_view, in_bounds. simpl. unfold buffer_size in *. lia. Qed.

(** On an ordered request [sub] stays inside the bytes of the view it cuts,
    hence inside the owner. *)
Lemma sub_ordered_wf v start end_ s :
  wf_view v -> 0 <= start <= end_ ->
  sub v start end_ = Ok s -> wf_view s.
Proof.
  intros Hwf Hs. pose proof (wf_view_len v Hwf) as Hl.
  unfold sub. rewrite size_wf by assumption.
  rewrite unsigned_slice_ordered by assumption. simpl. intros [= <-].
  destruct Hwf as [(Hb & H0 & Hu) Hm]. split; [|exact Hm].
  unfold in_bounds. simpl. lia.
Qed.

(** C2 (the code departs from the claim): [sub] with [end_] below both
    [start] and the view's length builds a sub-view whose length has wrapped
    around; its span is not inside the owner. *)
Theorem sub_reversed_out_of_bounds v start end_ :
  wf_view v -> 0 <= end_ -> end_ < start -> end_ < len (span v) ->
  exists s, sub v start end_ = Ok s
    /\ len (span s) = size_modulus - (Z.min start (len (span v)) - end_)
    /\ ~ in_bounds (owner s) (span s).
Proof.
  intros Hwf He Hlt Hel. pose proof (wf_view_len v Hwf) as Hl.
  unfold sub. rewrite size_wf by assumption.
  rewrite unsigned_slice_reversed by assumption. simpl.
  eexists. split; [reflexivity|]. simpl. split; [reflexivity|].
  destruct Hwf as [(Hb & H0 & Hu) Hm].
  unfold in_bounds. simpl. intros (_ & _ & Hc). size_arith.
Qed.

Lemma sub_reversed_out_of_bounds_witness :
  exists s, sub (str "0123456789"%string) 5 2 = Ok s
    /\ len (span s) = size_modulus - (Z.min 5 (len (span (str "0123456789"%string))) - 2)
    /\ ~ in_bounds (owner s) (span s).
Proof.
  apply (sub_reversed_out_of_bounds (str "0123456789"%string) 5 2).
  - apply wf_view_owner. vm_compute. discriminate.
  - lia.
  - lia.
  - vm_compute. reflexivity.
Defined.

(** C3 (as stated): every sub-view would point back at the owning object.
    It fails on a sub-view of a sub-view. *)
Lemma sub_parent_is_not_always_root :
  ~ (forall v start end_ s, sub v start end_ = Ok s -> parent s = Some (root v)).
Proof.
  intros H.
  pose (s1 := py_subspan_t (str "hello world"%string) {| ptr := 4096; len := 5 |}).
  specialize (H s1 1 3 _ eq_refl). discriminate H.
Qed.

(** C3 (amended): the sub-view returned by [sub] points back at the very
    object [sub] was called on, owner or sub-view alike; the owning object is
    the same one, reached through a chain one link longer. *)
Theorem sub_parent v start end_ s :
  sub v start end_ = Ok s ->
  parent s = Some v /\ root s = root v /\ owner s = owner v
  /\ depth s = S (depth v).
Proof.
  unfold sub. destruct (unsigned_slice _ _ _); simpl; try discriminate.
  intros [= <-]. simpl. auto.
Qed.

Lemma sub_parent_witness :
  let v := py_subspan_t (str "hello world"%string) {| ptr := 4096; len := 5 |} in
  let s := py_subspan_t v {| ptr := 4097; len := 2 |} in
  parent s = Some v /\ root s = root v /\ owner s = owner v
  /\ depth s = S (depth v).
Proof.
  intros v s. apply (sub_parent v 1 3 s). reflexivity.
Defined.

(** ** Element access on a collection *)

Lemma spans_size_small c :
  vec_size (parts_ c) <= ssize_max_k -> to_size (spans_size c) = vec_size (parts_ c).
Proof.
  intros H. unfold spans_size.
  assert (0 <= vec_size (parts_ c)) by (unfold vec_size; lia).
  now fold_sizes.
Qed.

(** [at(collection, -1)] is the last part of a collection that has one. *)
Lemma spans_at_last c ps p :
  parts_ c = ps ++ [p] -> vec_size (parts_ c) <= ssize_max_k ->
  spans_at c (-1) = Ok (py_subspan_t (whole_ c) p).
Proof.
  intros Hp Hs. unfold spans_at. rewrite spans_size_small by assumption.
  assert (Hn : vec_size (parts_ c) = Z.of_nat (length ps) + 1).
  { unfold vec_size. rewrite Hp, length_app. simpl. lia. }
  unfold unsigned_offset. change (0 <=? -1) with false. cbv iota.
  change (- -1) with 1. rewrite (to_size_small 1) by size_arith.
  destruct (vec_size (parts_ c) <? 1) eqn:E; [exfalso; lia|].
  rewrite to_size_small by size_arith. simpl.
  unfold vec_get.
  destruct ((0 <=? vec_size (parts_ c) + -1) && (vec_size (parts_ c) + -1 <? vec_size (parts_ c))) eqn:E2;
    [|exfalso; lia].
  rewrite Hn, Hp.
  replace (Z.to_nat (Z.of_nat (length ps) + 1 + -1)) with (length ps + 0)%nat by lia.
  rewrite lookup_app_r, Nat.add_0_r, Nat.sub_diag by lia. reflexivity.
Qed.

Lemma spans_at_last_of_empty c :
  parts_ c = [] -> spans_at c (-1) = Throw out_of_range.
Proof. intros Hp. unfold spans_at, spans_size. rewrite Hp. reflexivity. Qed.

(** C5 (the code departs from the claim): [at(collection, len(collection))]
    does not throw [out_of_range].  [unsigned_offset] rejects an index only
    when it is greater than the length, so the index equal to the length is
    accepted and [parts_] is read one past its last element. *)
Theorem spans_at_size_reads_past_end c :
  vec_size (parts_ c) <= ssize_max_k ->
  unsigned_offset (to_size (spans_size c)) (spans_size c) = Ok (vec_size (parts_ c))
  /\ spans_at c (spans_size c) = Undefined.
Proof.
  intros Hs. unfold spans_at. rewrite spans_size_small by assumption.
  assert (H0 : 0 <= vec_size (parts_ c)) by (unfold vec_size; lia).
  assert (Hu : unsigned_offset (vec_size (parts_ c)) (spans_size c)
               = Ok (vec_size (parts_ c))).
  { unfold unsigned_offset, spans_size. fold_sizes.
    destruct (0 <=? vec_size (parts_ c)) eqn:E; [|lia].
    destruct (vec_size (parts_ c) <? vec_size (parts_ c)) eqn:E2; [lia|].
    reflexivity. }
  split; [exact Hu|]. rewrite Hu. simpl. unfold vec_get.
  destruct (vec_size (parts_ c) <? vec_size (parts_ c)) eqn:E2; [lia|].
  now rewrite andb_false_r.
Qed.

Lemma spans_at_size_reads_past_end_witness :
  let c := {| whole_ := str "a,b"%string;
              parts_ := [ {| ptr := 4096; len := 1 |}; {| ptr := 4098; len := 1 |} ] |} in
  unsigned_offset (to_size (spans_size c)) (spans_size c) = Ok (vec_size (parts_ c))
  /\ spans_at c (spans_size c) = Undefined.
Proof.
  intros c. apply (spans_at_size_reads_past_end c). vm_compute. discriminate.
Defined.

(** ** Searching *)

(** C9: with an empty needle, whatever the view and the bounds, [contains]
    answers true, [find] answers 0 and [count] answers 0; the bounds are not
    even resolved. *)
Theorem empty_needle v start end_ allowoverlap :
  contains v [] start end_ = Ok true
  /\ find v [] start end_ = Ok 0
  /\ count v [] start end_ allowoverlap = Ok 0.
Proof. repeat split. Qed.

Lemma byte_eqb_eq (a b : byte) : Byte.eqb a b = true <-> a = b.
Proof. split; [apply byte_dec_bl | apply byte_dec_lb]. Qed.

Lemma starts_with_iff t n : starts_with t n = true <-> take (length n) t = n.
Proof.
  revert t. induction n as [|c n IH]; intros t.
  - split; [intros _; apply take_0 | reflexivity].
  - destruct t as [|b t]; cbn [starts_with length take].
    + split; discriminate.
    + split.
      * intros [Hb Ht]%andb_true_iff.
        apply byte_eqb_eq in Hb. apply IH in Ht. congruence.
      * intros [= -> Ht]. apply andb_true_iff. split.
        -- now apply byte_eqb_eq.
        -- now apply IH.
Qed.

Lemma find_byte_in_le t c : (find_byte_in t c <= length t)%nat.
Proof. induction t as [|b t IH]; simpl; [lia|]. destruct (Byte.eqb b c); lia. Qed.

Lemma find_seq_in_le t n : (find_seq_in t n <= length t)%nat.
Proof.
  induction t as [|b t IH]; [simpl; lia|].
  cbn [find_seq_in]. destruct (starts_with (b :: t) n); simpl; lia.
Qed.

Lemma find_seq_in_single t c : find_seq_in t [c] = find_byte_in t c.
Proof.
  induction t as [|b t IH]; [reflexivity|].
  cbn [find_seq_in find_byte_in starts_with]. rewrite andb_true_r, IH. reflexivity.
Qed.

Lemma find_seq_in_found t n :
  (find_seq_in t n < length t)%nat -> occurs_at t n (find_seq_in t n).
Proof.
  unfold occurs_at. induction t as [|b t IH]; [simpl; lia|].
  cbn [find_seq_in]. destruct (starts_with (b :: t) n) eqn:E.
  - intros _. now apply starts_with_iff.
  - simpl. intros H. apply IH. lia.
Qed.

Lemma find_seq_in_first t n j :
  (j < find_seq_in t n)%nat -> ~ occurs_at t n j.
Proof.
  unfold occurs_at. revert j. induction t as [|b t IH]; intros j; [simpl; lia|].
  cbn [find_seq_in]. destruct (starts_with (b :: t) n) eqn:E; [lia|].
  destruct j as [|j].
  - intros _ H. apply starts_with_iff in H. simpl in H. congruence.
  - intros H. simpl. apply IH. lia.
Qed.

Lemma find_seq_in_absent t n j :
  n <> [] -> find_seq_in t n = length t -> ~ occurs_at t n j.
Proof.
  intros Hn Hf. destruct (Nat.lt_ge_cases j (length t)) as [Hj|Hj].
  - apply find_seq_in_first. lia.
  - unfold occurs_at. rewrite drop_ge, take_nil by lia. congruence.
Qed.

(** ** Reading through a view *)

Lemma load_ok m s : len s = 0 \/ in_bounds m s -> load m s = Ok (span_bytes m s).
Proof.
  intros H. unfold load, span_bytes.
  destruct (len s =? 0) eqn:E.
  - apply Z.eqb_eq in E. rewrite E. reflexivity.
  - destruct H as [H|(H1 & H2 & H3)]; [exfalso; lia|].
    unfold in_boundsb.
    destruct (base m <=? ptr s) eqn:E1; [|exfalso; lia].
    destruct (0 <=? len s) eqn:E2; [|exfalso; lia].
    destruct (ptr s + len s <=? base m + buffer_size m) eqn:E3; [|exfalso; lia].
    reflexivity.
Qed.

Lemma content_length v : wf_view v -> Z.of_nat (length (content v)) = len (span v).
Proof.
  intros [(H1 & H2 & H3) _]. unfold content, span_bytes.
  rewrite length_take, length_drop. unfold buffer_size in H3. lia.
Qed.

Lemma span_bytes_within v o k :
  wf_view v -> 0 <= o -> 0 <= k -> o + k <= len (span v) ->
  span_bytes (owner v) {| ptr := ptr (span v) + o; len := k |}
  = take (Z.to_nat k) (drop (Z.to_nat o) (content v)).
Proof.
  intros [(H1 & H2 & H3) _] Ho Hk Hok. unfold content, span_bytes. simpl.
  replace (Z.to_nat (len (span v)))
    with (Z.to_nat o + (Z.to_nat (len (span v)) - Z.to_nat o))%nat by lia.
  rewrite <- take_drop_commute, take_take, drop_drop.
  rewrite Nat.min_l by lia. f_equal. f_equal. lia.
Qed.

Lemma load_within v o k :
  wf_view v -> 0 <= o -> 0 <= k -> o + k <= len (span v) ->
  load (owner v) {| ptr := ptr (span v) + o; len := k |}
  = Ok (take (Z.to_nat k) (drop (Z.to_nat o) (content v))).
Proof.
  intros Hwf Ho Hk Hok.
  rewrite <- span_bytes_within by assumption. apply load_ok. right.
  destruct Hwf as [(H1 & H2 & H3) _]. unfold in_bounds. simpl. lia.
Qed.

Lemma subspan_ordered sp start end_ :
  0 <= len sp <= ssize_max_k -> 0 <= start <= end_ ->
  subspan sp start end_ =
    Ok {| ptr := ptr sp + Z.min start (len sp);
          len := Z.min end_ (len sp) - Z.min start (len sp) |}.
Proof.
  intros Hl Hs. unfold subspan. now rewrite unsigned_slice_ordered by assumption.
Qed.

Lemma slice_length v start end_ :
  wf_view v -> 0 <= start <= end_ ->
  Z.of_nat (length (slice v start end_))
  = Z.min end_ (len (span v)) - Z.min start (len (span v)).
Proof.
  intros Hwf Hs. pose proof (content_length v Hwf) as Hc.
  unfold slice. rewrite length_take, length_drop. lia.
Qed.

(** Whichever kernel [find] picks, it hands back the first position of the
    needle in the slice, or the length of the slice. *)
Lemma find_offset v needle start end_ part :
  wf_view v -> needle <> [] -> 0 <= start <= end_ ->
  subspan (span v) start end_ = Ok part ->
  (if sv_size needle =? 1
   then find_substr_char (owner v) part (front needle)
   else find_substr (owner v) part needle)
  = Ok (Z.of_nat (find_seq_in (slice v start end_) needle))
  /\ len part = Z.of_nat (length (slice v start end_)).
Proof.
  intros Hwf Hn Hs. pose proof (wf_view_len v Hwf) as Hl.
  rewrite subspan_ordered by assumption. intros [= <-].
  rewrite slice_length by assumption. simpl. split; [|reflexivity].
  unfold find_substr_char, find_substr, strzl_naive_find_char, strzl_naive_find_substr.
  rewrite load_within by first [assumption | lia]. fold (slice v start end_). simpl.
  destruct (sv_size needle =? 1) eqn:E; [|reflexivity].
  destruct needle as [|c [|c' needle]]; [congruence| |];
    [|unfold sv_size in E; cbn [length] in E; absurd_arith].
  unfold front. cbn [hd]. now rewrite find_seq_in_single.
Qed.

(** X30: with a non-empty needle, a start bound above zero and an end bound
    not below it, [find] answers with a position counted from the start of
    the resolved slice (the bytes between the clamped bounds), not from the
    start of the view: the answer is the first position of the needle in the
    slice, and it is -1 exactly when the needle occurs nowhere in the
    slice. *)
Theorem find_is_relative_to_slice v needle start end_ :
  wf_view v -> needle <> [] -> 0 < start -> start <= end_ ->
  exists r, find v needle start end_ = Ok r
    /\ (r = -1 <-> forall i, ~ occurs_at (slice v start end_) needle i)
    /\ (r <> -1 ->
        0 <= r
        /\ occurs_at (slice v start end_) needle (Z.to_nat r)
        /\ forall j, (j < Z.to_nat r)%nat -> ~ occurs_at (slice v start end_) needle j).
Proof.
  intros Hwf Hn Hs He. pose proof (wf_view_len v Hwf) as Hl.
  unfold find.
  destruct (sv_size needle =? 0) eqn:E0.
  { destruct needle; [congruence|]. unfold sv_size in E0. cbn [length] in E0. absurd_arith. }
  destruct (subspan (span v) start end_) as [part| |] eqn:Hsub;
    try (rewrite subspan_ordered in Hsub by lia; discriminate).
  destruct (find_offset v needle start end_ part) as [Hoff Hlen]; try assumption; try lia.
  cbn [bind]. rewrite Hoff. cbn [bind]. rewrite Hlen.
  pose proof (find_seq_in_le (slice v start end_) needle) as Hle.
  pose proof (slice_length v start end_ Hwf ltac:(lia)) as Hsl.
  set (t := slice v start end_) in *.
  destruct (Z.of_nat (find_seq_in t needle) =? Z.of_nat (length t)) eqn:E; simpl.
  - eexists. split; [reflexivity|]. split; [|congruence].
    split; [|reflexivity]. intros _ i. apply find_seq_in_absent; [assumption|lia].
  - eexists. split; [reflexivity|].
    rewrite to_ssize_small by size_arith.
    split.
    + split; [intros; exfalso; lia|]. intros Hno. exfalso.
      apply (Hno (find_seq_in t needle)). apply find_seq_in_found. lia.
    + intros _. rewrite Nat2Z.id. split; [lia|]. split.
      * apply find_seq_in_found. lia.
      * intros j Hj. now apply find_seq_in_first.
Qed.

Lemma find_is_relative_to_slice_witness :
  exists r, find (str "hello world"%string) (bytes_of "o"%string) 5 ssize_max_k = Ok r
    /\ (r = -1 <-> forall i, ~ occurs_at (slice (str "hello world"%string) 5 ssize_max_k)
                                (bytes_of "o"%string) i)
    /\ (r <> -1 ->
        0 <= r
        /\ occurs_at (slice (str "hello world"%string) 5 ssize_max_k)
             (bytes_of "o"%string) (Z.to_nat r)
        /\ forall j, (j < Z.to_nat r)%nat ->
             ~ occurs_at (slice (str "hello world"%string) 5 ssize_max_k)
                 (bytes_of "o"%string) j).
Proof.
  apply (find_is_relative_to_slice (str "hello world"%string) (bytes_of "o"%string)
           5 ssize_max_k).
  - apply wf_view_owner. vm_compute. discriminate.
  - discriminate.
  - lia.
  - vm_compute. discriminate.
Defined.

Example count_scenarios :
  count (str "abcabc"%string) (bytes_of "abc"%string) 0 ssize_max_k false = Ok 2
  /\ count (str "ababa"%string) (bytes_of "aba"%string) 0 ssize_max_k true = Ok 2.
Proof. split; reflexivity. Qed.

(** On "hello world" cut from offset 5 the first "o" is reported at 2, its
    place in " world", although it sits at 7 in the view. *)
Example find_relative_example :
  find (str "hello world"%string) (bytes_of "o"%string) 5 ssize_max_k = Ok 2
  /\ find (str "hello world"%string) (bytes_of "o"%string) 0 ssize_max_k = Ok 4
  /\ find (str "hello world"%string) (bytes_of "wor"%string) 5 ssize_max_k = Ok 1
  /\ find (str "hello world"%string) (bytes_of "x"%string) 5 ssize_max_k = Ok (-1).
Proof. repeat split. Qed.

(** ** [splitlines] under a cap *)

Lemma vec_set_length parts i x parts' :
  vec_set parts i x = Ok parts' -> length parts' = length parts.
Proof.
  unfold vec_set. destruct (_ && _); [|discriminate].
  intros [= <-]. apply length_insert.
Qed.

Lemma splitlines_loop_length n v keep sep :
  forall i parts last_start parts' last_start',
    splitlines_loop n v keep sep i parts last_start = Ok (parts', last_start') ->
    length parts' = length parts.
Proof.
  induction n as [|n IH]; intros i parts ls parts' ls'; cbn [splitlines_loop].
  - now intros [= <- _].
  - destruct (find_substr_char _ _ _) as [off| |]; cbn [bind]; try discriminate.
    destruct (vec_set _ _ _) as [parts1| |] eqn:Hset; cbn [bind]; try discriminate.
    intros H. apply IH in H. apply vec_set_length in Hset. congruence.
Qed.

Lemma load_no_throw m s e : load m s <> Throw e.
Proof. unfold load. destruct (len s =? 0); [|destruct (in_boundsb m s)]; discriminate. Qed.

Lemma splitlines_loop_no_throw n v keep sep e :
  forall i parts last_start,
    splitlines_loop n v keep sep i parts last_start <> Throw e.
Proof.
  induction n as [|n IH]; intros i parts ls; cbn [splitlines_loop]; [discriminate|].
  unfold find_substr_char, strzl_naive_find_char.
  destruct (load _ _) as [t| |] eqn:Hl; cbn [bind]; try discriminate.
  - unfold vec_set. destruct (_ && _); cbn [bind]; [apply IH | discriminate].
  - now apply load_no_throw in Hl.
Qed.

(** C4 (the code departs from the claim): under a cap smaller than the
    number of separators plus one, [splitlines] does not hand back
    [maxsplit] parts with the rest of the text in the last one.  The vector
    has [maxsplit] slots, the loop fills all but the last, and the tail is
    then stored at index [count_separators], which is outside the vector. *)
Theorem splitlines_capped_stores_tail_out_of_bounds v keeplinebreaks separator maxsplit k :
  count_substr_char (owner v) (span v) separator = Ok k ->
  0 <= maxsplit < k + 1 ->
  splitlines v keeplinebreaks separator maxsplit = Undefined.
Proof.
  intros Hk Hcap. unfold splitlines. rewrite Hk. cbn [bind].
  set (parts := replicate _ empty_span).
  assert (Hlen : vec_size parts <= maxsplit).
  { unfold vec_size, parts. rewrite length_replicate. lia. }
  destruct (splitlines_loop _ _ _ _ _ _ _) as [[parts' ls']| e |] eqn:Hloop; cbn [bind].
  - apply splitlines_loop_length in Hloop.
    unfold vec_set, vec_size in *. rewrite Hloop.
    destruct (k <? Z.of_nat (length parts)) eqn:E; [absurd_arith|].
    now rewrite andb_false_r.
  - now apply splitlines_loop_no_throw in Hloop.
  - reflexivity.
Qed.

Lemma splitlines_capped_stores_tail_out_of_bounds_witness :
  splitlines (str "a,b,c"%string) false ","%byte 2 = Undefined.
Proof.
  apply (splitlines_capped_stores_tail_out_of_bounds
           (str "a,b,c"%string) false ","%byte 2 2).
  - reflexivity.
  - lia.
Defined.

(** With the cap at or above the number of parts the same text splits. *)
Example splitlines_uncapped_example :
  (let* c := splitlines (str "a,b,c"%string) false ","%byte 3 in Ok (parts_bytes c))
  = Ok [bytes_of "a"%string; bytes_of "b"%string; bytes_of "c"%string].
Proof. reflexivity. Qed.

(** ** The reference scan *)

Lemma sv_size_length s : sv_size s = Z.of_nat (length s).
Proof. reflexivity. Qed.

Lemma found_fits t n :
  (find_seq_in t n < length t)%nat -> (find_seq_in t n + length n <= length t)%nat.
Proof.
  intros Hlt. pose proof (find_seq_in_found t n Hlt) as H. unfold occurs_at in H.
  apply (f_equal length) in H. rewrite length_take, length_drop in H. lia.
Qed.

Lemma first_at_find t n i :
  n <> [] -> first_at t n i -> find_seq_in t n = i /\ (i < length t)%nat.
Proof.
  intros Hn [Hocc Hfirst].
  assert (Hi : (i < length t)%nat).
  { unfold occurs_at in Hocc. apply (f_equal length) in Hocc.
    rewrite length_take, length_drop in Hocc.
    destruct n; [congruence|]. cbn [length] in Hocc. lia. }
  split; [|exact Hi].
  destruct (Nat.lt_trichotomy (find_seq_in t n) i) as [Hlt|[Heq|Hgt]].
  - exfalso. apply (Hfirst _ Hlt). apply find_seq_in_found. lia.
  - exact Heq.
  - exfalso. now apply (find_seq_in_first t n i).
Qed.

Lemma scan_parts_fuel sep keep :
  sep <> [] ->
  forall f1 f2 p t, (length t <= f1)%nat -> (length t <= f2)%nat ->
    scan_parts f1 sep keep p t = scan_parts f2 sep keep p t.
Proof.
  intros Hsep. induction f1 as [|f1 IH]; intros f2 p t H1 H2.
  - destruct t; [now destruct f2 | simpl in H1; lia].
  - destruct t as [|b t]; [now destruct f2|].
    destruct f2 as [|f2]; [simpl in H2; lia|].
    cbn [scan_parts]. destruct (_ =? _)%nat; [reflexivity|].
    f_equal. apply IH; rewrite length_drop;
      destruct sep; try congruence; simpl in *; lia.
Qed.

Lemma scan_nil sep keep p : scan sep keep p [] = [empty_span].
Proof. reflexivity. Qed.

Lemma scan_absent sep keep p t :
  t <> [] -> find_seq_in t sep = length t ->
  scan sep keep p t = [{| ptr := p; len := Z.of_nat (length t) |}].
Proof.
  intros Ht Hf. unfold scan. destruct t as [|b t]; [congruence|].
  cbn [scan_parts length]. rewrite Hf. cbn [length]. rewrite Nat.eqb_refl. reflexivity.
Qed.

Lemma scan_found sep keep p t :
  sep <> [] -> (find_seq_in t sep < length t)%nat ->
  scan sep keep p t =
    {| ptr := p; len := Z.of_nat (find_seq_in t sep) + sv_size sep * Z.b2z keep |}
    :: scan sep keep (p + Z.of_nat (find_seq_in t sep) + sv_size sep)
         (drop (find_seq_in t sep + length sep) t).
Proof.
  intros Hsep Hf. unfold scan. destruct t as [|b t]; [simpl in Hf; lia|].
  cbn [scan_parts length].
  cbn [length] in Hf.
  destruct (_ =? _)%nat eqn:E; [apply Nat.eqb_eq in E; lia|].
  f_equal. apply scan_parts_fuel; [assumption| |lia].
  rewrite length_drop. destruct sep; [congruence|]. cbn [length]. lia.
Qed.

Lemma scan_cases sep t :
  t = [] \/ (t <> [] /\ find_seq_in t sep = length t)
  \/ (find_seq_in t sep < length t)%nat.
Proof.
  destruct t as [|b t]; [now left|]. right.
  pose proof (find_seq_in_le (b :: t) sep).
  destruct (Nat.eq_dec (find_seq_in (b :: t) sep) (length (b :: t))).
  - left. split; [discriminate | assumption].
  - right. lia.
Qed.

Lemma scan_nonempty sep keep p t : sep <> [] -> scan sep keep p t <> [].
Proof.
  intros Hsep. destruct (scan_cases sep t) as [->|[[Ht Hf]|Hf]].
  - discriminate.
  - rewrite scan_absent by assumption. discriminate.
  - rewrite scan_found by assumption. discriminate.
Qed.

Lemma scan_length_le sep keep :
  sep <> [] ->
  forall n p t, (length t <= n)%nat -> (length (scan sep keep p t) <= S (length t))%nat.
Proof.
  intros Hsep. induction n as [|n IH]; intros p t Hn.
  - destruct t; [simpl; lia | simpl in Hn; lia].
  - destruct (scan_cases sep t) as [->|[[Ht Hf]|Hf]].
    + simpl. lia.
    + rewrite scan_absent by assumption. simpl. lia.
    + rewrite scan_found by assumption. cbn [length].
      pose proof (found_fits t sep Hf) as Hfit.
      assert (length sep <> 0)%nat by (destruct sep; [congruence | simpl; lia]).
      match goal with |- context [scan sep keep ?q ?r] =>
        specialize (IH q r) end.
      rewrite length_drop in IH. lia.
Qed.

Lemma join_cons sep p ps : ps <> [] -> join sep (p :: ps) = p ++ sep ++ join sep ps.
Proof. destruct ps; [congruence | reflexivity]. Qed.

Lemma span_bytes_empty m : span_bytes m empty_span = [].
Proof. reflexivity. Qed.

Lemma split_at_occurrence t sep off :
  occurs_at t sep off ->
  t = take off t ++ sep ++ drop (off + length sep) t.
Proof.
  unfold occurs_at. intros H.
  rewrite <- (take_drop off t) at 1. f_equal.
  rewrite <- (take_drop (length sep) (drop off t)) at 1.
  rewrite H, drop_drop. reflexivity.
Qed.

(** The parts of the reference scan give the text back. *)
Lemma scan_reassemble v sep keep :
  wf_view v -> sep <> [] ->
  forall n ls, (length (content v) - ls <= n)%nat -> (ls <= length (content v))%nat ->
    reassemble keep sep
      (map (span_bytes (owner v))
         (scan sep keep (ptr (span v) + Z.of_nat ls) (drop ls (content v))))
    = drop ls (content v).
Proof.
  intros Hwf Hsep. pose proof (content_length v Hwf) as Hc.
  induction n as [|n IH]; intros ls Hn Hls.
  - rewrite drop_ge by lia. rewrite scan_nil. now destruct keep.
  - pose proof (length_drop (content v) ls) as Hd.
    destruct (scan_cases sep (drop ls (content v))) as [E|[[Ht Hf]|Hf]].
    + rewrite E, scan_nil. now destruct keep.
    + rewrite scan_absent by assumption. cbn [map].
      rewrite span_bytes_within by first [assumption | lia].
      rewrite !Nat2Z.id, take_ge by lia.
      unfold reassemble. destruct keep; simpl; [apply app_nil_r | reflexivity].
    + pose proof (found_fits _ _ Hf) as Hfit.
      pose proof (find_seq_in_found _ _ Hf) as Hocc.
      assert (Hs1 : (1 <= length sep)%nat) by (destruct sep; [congruence | simpl; lia]).
      rewrite scan_found by assumption.
      set (t := drop ls (content v)) in *. set (off := find_seq_in t sep) in *.
      cbn [map].
      assert (Hrest :
        reassemble keep sep
          (map (span_bytes (owner v))
             (scan sep keep (ptr (span v) + Z.of_nat ls + Z.of_nat off + sv_size sep)
                (drop (off + length sep) t)))
        = drop (off + length sep) t).
      { unfold t. rewrite drop_drop.
        replace (ptr (span v) + Z.of_nat ls + Z.of_nat off + sv_size sep)
          with (ptr (span v) + Z.of_nat (ls + (off + length sep)))
          by (unfold sv_size; lia).
        apply IH; lia. }
      assert (Hne :
        map (span_bytes (owner v))
          (scan sep keep (ptr (span v) + Z.of_nat ls + Z.of_nat off + sv_size sep)
             (drop (off + length sep) t)) <> []).
      { intros E. apply map_eq_nil in E. now apply scan_nonempty in E. }
      rewrite span_bytes_within by first [assumption | unfold sv_size; destruct keep; simpl; lia].
      fold t. unfold reassemble in *. destruct keep.
      * cbn [concat]. rewrite Hrest.
        replace (Z.to_nat (Z.of_nat off + sv_size sep * Z.b2z true))
          with (off + length sep)%nat by (unfold sv_size; simpl; lia).
        rewrite Nat2Z.id. apply take_drop.
      * rewrite join_cons by assumption. rewrite Hrest.
        replace (Z.to_nat (Z.of_nat off + sv_size sep * Z.b2z false))
          with off by (simpl; lia).
        rewrite Nat2Z.id. symmetry. now apply split_at_occurrence.
Qed.

(** A text that ends on its [k]-th separator is cut into [k] parts followed
    by the empty [span_t {}]. *)
Lemma scan_ends sep keep t k :
  sep <> [] -> ends_on_separator sep t k ->
  forall p, exists front,
    scan sep keep p t = front ++ [empty_span] /\ length front = k.
Proof.
  intros Hsep H. induction H as [t off Hfirst Hend | t off k Hfirst Hlt Hrest IH]; intros p.
  - destruct (first_at_find t sep off Hsep Hfirst) as [Hf Hoff].
    rewrite scan_found by (assumption || lia). rewrite Hf.
    rewrite (drop_ge t) by lia. rewrite scan_nil.
    eexists [_]. split; reflexivity.
  - destruct (first_at_find t sep off Hsep Hfirst) as [Hf Hoff].
    rewrite scan_found by (assumption || lia). rewrite Hf.
    destruct (IH (p + Z.of_nat off + sv_size sep)) as (front & -> & Hlen).
    eexists (_ :: front). split; [reflexivity|]. simpl. now rewrite Hlen.
Qed.

Lemma count_byte_in_le t c : (count_byte_in t c <= length t)%nat.
Proof. induction t as [|b t IH]; simpl; [lia|]. destruct (Byte.eqb b c); lia. Qed.

Lemma count_byte_in_found t c :
  (find_byte_in t c < length t)%nat ->
  count_byte_in t c = S (count_byte_in (drop (S (find_byte_in t c)) t) c).
Proof.
  induction t as [|b t IH]; cbn [find_byte_in count_byte_in length]; [lia|].
  destruct (Byte.eqb b c).
  - intros _. reflexivity.
  - intros H. rewrite IH by lia. reflexivity.
Qed.

Lemma count_byte_in_absent t c :
  find_byte_in t c = length t -> count_byte_in t c = O.
Proof.
  induction t as [|b t IH]; cbn [find_byte_in count_byte_in length]; [reflexivity|].
  destruct (Byte.eqb b c); [discriminate|]. intros [= H]. now rewrite IH.
Qed.

Lemma count_zero_absent t c : count_byte_in t c = O -> find_byte_in t c = length t.
Proof.
  intros H. pose proof (find_byte_in_le t c).
  destruct (Nat.eq_dec (find_byte_in t c) (length t)); [assumption|].
  rewrite count_byte_in_found in H by lia. discriminate.
Qed.

Lemma count_succ_found t c n :
  count_byte_in t c = S n ->
  (find_byte_in t c < length t)%nat
  /\ count_byte_in (drop (S (find_byte_in t c)) t) c = n.
Proof.
  intros H. pose proof (find_byte_in_le t c).
  destruct (Nat.eq_dec (find_byte_in t c) (length t)) as [E|E].
  - rewrite count_byte_in_absent in H by assumption. discriminate.
  - split; [lia|]. rewrite count_byte_in_found in H by lia. congruence.
Qed.

Lemma ends_count c t k :
  ends_on_separator [c] t k -> count_byte_in t c = k.
Proof.
  intros H. induction H as [t off Hfirst Hend | t off k Hfirst Hlt Hrest IH].
  - destruct (first_at_find t [c] off) as [Hf Hoff]; [discriminate|assumption|].
    rewrite find_seq_in_single in Hf. simpl in Hend.
    rewrite count_byte_in_found by lia.
    rewrite (drop_ge t) by lia. reflexivity.
  - destruct (first_at_find t [c] off) as [Hf Hoff]; [discriminate|assumption|].
    rewrite find_seq_in_single in Hf. simpl in Hlt, IH.
    rewrite count_byte_in_found by lia. f_equal. rewrite <- IH.
    do 2 f_equal. lia.
Qed.

(** ** What is left from a cursor on *)

Lemma after_n_load v ls :
  wf_view v ->
  load (owner v) (after_n v (Z.of_nat ls)) = Ok (drop ls (content v)).
Proof.
  intros Hwf. pose proof (content_length v Hwf) as Hc. unfold after_n.
  destruct (Z.of_nat ls <? len (span v)) eqn:E.
  - rewrite load_within by first [assumption | bool_to_prop; lia].
    rewrite Nat2Z.id, take_ge by (rewrite length_drop; bool_to_prop; lia).
    reflexivity.
  - rewrite drop_ge by (bool_to_prop; lia). reflexivity.
Qed.

Lemma after_n_len v ls :
  wf_view v ->
  len (after_n v (Z.of_nat ls)) = Z.of_nat (length (drop ls (content v))).
Proof.
  intros Hwf. pose proof (content_length v Hwf) as Hc. unfold after_n.
  rewrite length_drop.
  destruct (Z.of_nat ls <? len (span v)) eqn:E; simpl; bool_to_prop; lia.
Qed.

Lemma after_n_ptr v ls :
  Z.of_nat ls < len (span v) ->
  ptr (after_n v (Z.of_nat ls)) = ptr (span v) + Z.of_nat ls.
Proof.
  intros H. unfold after_n.
  destruct (Z.of_nat ls <? len (span v)) eqn:E; [reflexivity | bool_to_prop; lia].
Qed.

(** Where nothing more is found, the rest of the text is the last part. *)
Lemma scan_tail v sep keep ls :
  wf_view v -> (ls <= length (content v))%nat ->
  find_seq_in (drop ls (content v)) sep = length (drop ls (content v)) ->
  scan sep keep (ptr (span v) + Z.of_nat ls) (drop ls (content v))
  = [after_n v (Z.of_nat ls)].
Proof.
  intros Hwf Hls Hf. pose proof (content_length v Hwf) as Hc.
  pose proof (length_drop (content v) ls) as Hd.
  unfold after_n. destruct (Z.of_nat ls <? len (span v)) eqn:E; bool_to_prop.
  - rewrite scan_absent; [|intros E'; rewrite E' in Hd; simpl in Hd; lia|assumption].
    do 2 f_equal. lia.
  - rewrite drop_ge by lia. reflexivity.
Qed.

(** ** [splitlines] against the reference scan *)

Lemma vec_set_middle filled x y rest :
  vec_set (filled ++ x :: rest) (Z.of_nat (length filled)) y
  = Ok (filled ++ y :: rest).
Proof.
  unfold vec_set, vec_size. rewrite length_app. cbn [length].
  destruct (_ && _) eqn:E.
  - rewrite Nat2Z.id. f_equal.
    replace (length filled) with (length filled + 0)%nat at 1 by lia.
    now rewrite insert_app_r.
  - apply andb_false_iff in E. destruct E; absurd_arith.
Qed.

Lemma splitlines_loop_scan v keep c :
  wf_view v ->
  forall n filled ls,
    count_byte_in (drop ls (content v)) c = n ->
    (ls <= length (content v))%nat ->
    (length filled + n <= length (content v))%nat ->
    exists parts' ls',
      splitlines_loop n v keep c (Z.of_nat (length filled))
        (filled ++ replicate (S n) empty_span) (Z.of_nat ls) = Ok (parts', ls')
      /\ vec_set parts' (Z.of_nat (length filled + n)) (after_n v ls')
         = Ok (filled ++ scan [c] keep (ptr (span v) + Z.of_nat ls)
                           (drop ls (content v))).
Proof.
  intros Hwf. pose proof (content_length v Hwf) as Hc.
  pose proof (wf_view_len v Hwf) as Hl.
  induction n as [|n IH]; intros filled ls Hcount Hls Hfill.
  - cbn [splitlines_loop replicate]. do 2 eexists. split; [reflexivity|].
    rewrite Nat.add_0_r, vec_set_middle. do 2 f_equal.
    symmetry. apply scan_tail; try assumption.
    rewrite find_seq_in_single. now apply count_zero_absent.
  - destruct (count_succ_found _ _ _ Hcount) as [Hfound Hrest].
    set (t := drop ls (content v)) in *. set (off := find_byte_in t c) in *.
    assert (Ht : length t = (length (content v) - ls)%nat) by apply length_drop.
    cbn [splitlines_loop].
    unfold find_substr_char, strzl_naive_find_char.
    rewrite after_n_load by assumption. fold t. cbn [bind]. fold off.
    rewrite replicate_S, vec_set_middle. cbn [bind].
    replace (to_size (Z.of_nat (length filled) + 1))
      with (Z.of_nat (length (filled ++ [ {| ptr := ptr (span v) + Z.of_nat ls;
                                             len := to_size (Z.of_nat off + Z.b2z keep) |} ])))
      by (rewrite length_app; cbn [length]; fold_sizes; lia).
    replace (to_size (Z.of_nat ls + to_size (Z.of_nat off + 1)))
      with (Z.of_nat (ls + S off)) by (fold_sizes; lia).
    destruct (IH (filled ++ [ {| ptr := ptr (span v) + Z.of_nat ls;
                                 len := to_size (Z.of_nat off + Z.b2z keep) |} ])
                 (ls + S off)%nat)
      as (parts' & ls' & Hloop & Hset).
    + unfold t in Hrest. now rewrite drop_drop in Hrest.
    + lia.
    + rewrite length_app. cbn [length]. lia.
    + rewrite <- app_assoc in Hloop. cbn [app] in Hloop.
      exists parts', ls'. split; [exact Hloop|].
      rewrite length_app in Hset. cbn [length] in Hset.
      replace (length filled + S n)%nat with (length filled + 1 + n)%nat by lia.
      rewrite Hset. f_equal. rewrite <- app_assoc. f_equal. cbn [app].
      rewrite (scan_found [c] keep _ t) by
        (try discriminate; rewrite find_seq_in_single; exact Hfound).
      rewrite find_seq_in_single. fold off.
      unfold t. rewrite drop_drop. cbn [length].
      f_equal.
      * f_equal. unfold sv_size. cbn [length].
        rewrite to_size_small by (destruct keep; simpl; size_arith).
        lia.
      * f_equal; [unfold sv_size; cbn [length]; lia|].
        f_equal. lia.
Qed.

Lemma count_substr_char_whole v c :
  wf_view v ->
  count_substr_char (owner v) (span v) c
  = Ok (Z.of_nat (count_byte_in (content v) c)).
Proof.
  intros Hwf. unfold count_substr_char, strzl_naive_count_char.
  rewrite load_ok by (right; apply Hwf). reflexivity.
Qed.

(** With a cap that is not below the number of separators plus one,
    [splitlines] returns the parts of the reference scan. *)
Lemma splitlines_scan v keep c maxsplit :
  wf_view v ->
  Z.of_nat (count_byte_in (content v) c) + 1 <= maxsplit ->
  splitlines v keep c maxsplit
  = Ok {| whole_ := v; parts_ := scan [c] keep (ptr (span v)) (content v) |}.
Proof.
  intros Hwf Hcap. pose proof (content_length v Hwf) as Hc.
  pose proof (wf_view_len v Hwf) as Hl.
  pose proof (count_byte_in_le (content v) c) as Hk.
  unfold splitlines. rewrite count_substr_char_whole by assumption. cbn [bind].
  set (k := count_byte_in (content v) c) in *.
  rewrite to_size_small by size_arith.
  rewrite Z.min_l by lia.
  replace (Z.to_nat (Z.of_nat k + 1)) with (S k) by lia.
  unfold vec_size at 1. rewrite length_replicate.
  replace (Z.to_nat (Z.of_nat (S k) - 1)) with k by lia.
  destruct (splitlines_loop_scan v keep c Hwf k [] 0%nat)
    as (parts' & ls' & Hloop & Hset);
    [now rewrite drop_0 | lia | simpl; lia |].
  cbn [length app] in Hloop. change (Z.of_nat 0) with 0 in Hloop.
  rewrite Hloop. cbn [bind].
  cbn [length Nat.add app] in Hset. rewrite Hset. cbn [bind].
  rewrite drop_0. do 3 f_equal. simpl. lia.
Qed.

(** ** [split] against the reference scan *)

Lemma split_loop_exit fuel v sep maxsplit keep parts ls wc :
  (ls <? len (span v)) && (to_size (vec_size parts + 1) <? maxsplit) = false ->
  split_loop fuel v sep maxsplit keep parts ls wc = Some (Ok (parts, ls, wc)).
Proof. intros H. destruct fuel; cbn [split_loop]; now rewrite H. Qed.

Lemma find_substr_after_n v sep ls :
  wf_view v ->
  find_substr (owner v) (after_n v (Z.of_nat ls)) sep
  = Ok (Z.of_nat (find_seq_in (drop ls (content v)) sep)).
Proof.
  intros Hwf. unfold find_substr, strzl_naive_find_substr.
  now rewrite after_n_load by assumption.
Qed.

Lemma split_loop_scan v sep keep maxsplit :
  wf_view v -> sep <> [] -> sv_size sep <= ssize_max_k -> maxsplit <= size_max_k ->
  forall fuel acc ls,
    (ls <= length (content v))%nat ->
    (length (content v) - ls <= fuel)%nat ->
    vec_size acc
      + Z.of_nat (length (scan sep keep (ptr (span v) + Z.of_nat ls)
                            (drop ls (content v)))) <= maxsplit ->
    exists parts ls' wc,
      split_loop fuel v sep maxsplit keep acc (Z.of_nat ls) true
      = Some (Ok (parts, ls', wc))
      /\ (if wc : bool then parts ++ [after_n v ls'] else parts)
         = acc ++ scan sep keep (ptr (span v) + Z.of_nat ls) (drop ls (content v)).
Proof.
  intros Hwf Hsep Hsz Hmax. pose proof (content_length v Hwf) as Hc.
  pose proof (wf_view_len v Hwf) as Hl.
  assert (Hs1 : (1 <= length sep)%nat) by (destruct sep; [congruence | simpl; lia]).
  induction fuel as [|fuel IH]; intros acc ls Hls Hfuel Hcap.
  - (* no fuel: the cursor is at the end *)
    assert (ls = length (content v)) by lia. subst ls.
    rewrite split_loop_exit
      by (apply andb_false_iff; left; apply Z.ltb_ge; lia).
    do 3 eexists. split; [reflexivity|]. cbn iota. f_equal.
    symmetry. apply scan_tail; [assumption|lia|].
    now rewrite drop_all.
  - set (t := drop ls (content v)) in *.
    assert (Ht : length t = (length (content v) - ls)%nat) by apply length_drop.
    pose proof (find_seq_in_le t sep) as Hle.
    destruct ((Z.of_nat ls <? len (span v))
              && (to_size (vec_size acc + 1) <? maxsplit)) eqn:Hcond.
    + apply andb_true_iff in Hcond. destruct Hcond as [Hc1 Hc2].
      assert (Hlt : Z.of_nat ls < len (span v)) by (bool_to_prop; lia).
      cbn [split_loop]. rewrite Hc1, Hc2. cbn [andb].
      rewrite find_substr_after_n by assumption. fold t.
      rewrite after_n_len by assumption. fold t.
      rewrite after_n_ptr by assumption.
      destruct (Nat.eq_dec (find_seq_in t sep) (length t)) as [Habs|Hfound].
      * (* nothing found: the rest is the last part and the loop stops *)
        rewrite Habs, Z.eqb_refl. cbn [negb Z.b2z].
        rewrite Z.mul_0_r.
        rewrite split_loop_exit.
        2:{ apply andb_false_iff; left; apply Z.ltb_ge.
            unfold sv_size in *. fold_sizes. lia. }
        do 3 eexists. split; [reflexivity|]. cbn iota. f_equal.
        rewrite scan_absent; [|intros E; rewrite E in Ht; simpl in Ht; lia|assumption].
        do 2 f_equal. unfold sv_size. fold_sizes. lia.
      * (* a separator is found: one part, and on from behind it *)
        pose proof (found_fits t sep ltac:(lia)) as Hfit.
        set (off := find_seq_in t sep) in *.
        destruct (Z.of_nat off =? Z.of_nat (length t)) eqn:E; [absurd_arith|].
        cbn [negb Z.b2z]. rewrite Z.mul_1_r.
        rewrite (scan_found sep keep _ t) in * by (assumption || lia). fold off in Hcap |- *.
        cbn [length] in Hcap.
        replace (to_size (Z.of_nat ls + to_size (Z.of_nat off + sv_size sep)))
          with (Z.of_nat (ls + (off + length sep)))
          by (unfold sv_size in *; fold_sizes; lia).
        replace (ptr (span v) + Z.of_nat ls + Z.of_nat off + sv_size sep)
          with (ptr (span v) + Z.of_nat (ls + (off + length sep))) in *
          by (unfold sv_size; lia).
        replace (drop (off + length sep) t)
          with (drop (ls + (off + length sep)) (content v)) in *
          by (unfold t; now rewrite drop_drop).
        replace (to_size (Z.of_nat off + to_size (sv_size sep * Z.b2z keep)))
          with (Z.of_nat off + sv_size sep * Z.b2z keep)
          by (unfold sv_size in *; destruct keep; simpl Z.b2z; fold_sizes; lia).
        destruct (IH (acc ++ [ {| ptr := ptr (span v) + Z.of_nat ls;
                                  len := Z.of_nat off + sv_size sep * Z.b2z keep |} ])
                     (ls + (off + length sep))%nat)
          as (parts & ls' & wc & Hloop & Hparts).
        -- lia.
        -- lia.
        -- unfold vec_size in *. rewrite length_app. cbn [length]. lia.
        -- exists parts, ls', wc. split; [exact Hloop|].
           rewrite Hparts, <- app_assoc. reflexivity.
    + (* the loop condition is false on entry *)
      rewrite split_loop_exit by assumption.
      do 3 eexists. split; [reflexivity|]. cbn iota. f_equal.
      apply andb_false_iff in Hcond. destruct Hcond as [Hc1|Hc2].
      * symmetry. apply scan_tail; [assumption|lia|].
        rewrite drop_ge by (bool_to_prop; lia). reflexivity.
      * (* the cap binds: only one part can be left, the whole rest *)
        destruct (Nat.eq_dec (find_seq_in t sep) (length t)) as [Habs|Hfound].
        -- symmetry. now apply scan_tail.
        -- exfalso. rewrite (scan_found sep keep _ t) in Hcap by (assumption || lia).
           cbn [length] in Hcap.
           match type of Hcap with context [length (scan sep keep ?q ?r)] =>
             pose proof (scan_nonempty sep keep q r Hsep) as Hne;
             destruct (scan sep keep q r); [congruence|] end.
           cbn [length] in Hcap. unfold vec_size in *.
           assert (0 <= Z.of_nat (length acc) + 1 < size_modulus) by size_arith.
           rewrite to_size_small in Hc2 by assumption. bool_to_prop. lia.
Qed.

(** Off the [splitlines] shortcut and with room for every part, [split]
    returns the parts of the reference scan. *)
Lemma split_scan fuel v sep maxsplit keep :
  wf_view v -> sep <> [] -> sv_size sep <= ssize_max_k -> maxsplit <= size_max_k ->
  split_delegates sep maxsplit = false ->
  (length (content v) <= fuel)%nat ->
  Z.of_nat (length (scan sep keep (ptr (span v)) (content v))) <= maxsplit ->
  split fuel v sep maxsplit keep
  = Some (Ok {| whole_ := v; parts_ := scan sep keep (ptr (span v)) (content v) |}).
Proof.
  intros Hwf Hsep Hsz Hmax Hdel Hfuel Hcap. unfold split. rewrite Hdel.
  destruct (split_loop_scan v sep keep maxsplit Hwf Hsep Hsz Hmax fuel [] 0%nat)
    as (parts & ls' & wc & Hloop & Hparts).
  - lia.
  - lia.
  - rewrite drop_0. change (Z.of_nat 0) with 0. rewrite Z.add_0_r.
    unfold vec_size. simpl length. lia.
  - change (Z.of_nat 0) with 0 in *. rewrite Z.add_0_r, drop_0 in Hparts.
    rewrite Hloop. cbn [bind app] in *. now rewrite Hparts.
Qed.

Lemma split_delegates_default sep : split_delegates sep size_max_k = false.
Proof. unfold split_delegates. now rewrite andb_false_r. Qed.

Lemma parts_reassemble v sep keep :
  wf_view v -> sep <> [] ->
  reassemble keep sep
    (parts_bytes {| whole_ := v; parts_ := scan sep keep (ptr (span v)) (content v) |})
  = content v.
Proof.
  intros Hwf Hsep.
  pose proof (scan_reassemble v sep keep Hwf Hsep (length (content v)) 0%nat) as H.
  change (Z.of_nat 0) with 0 in H. rewrite Z.add_0_r, drop_0 in H.
  apply H; lia.
Qed.

(** C6: without a cap ([maxsplit] at its default [size_max_k]), [split] with
    any non-empty separator and [splitlines] with any separator byte return
    parts that give the bytes of the view back: joined with the separator
    put back between them when the separators were dropped, simply glued
    when they were kept in the parts. *)
Theorem split_parts_reassemble fuel v separator keepseparator :
  wf_view v -> separator <> [] -> sv_size separator <= ssize_max_k ->
  (length (content v) <= fuel)%nat ->
  (exists c, split fuel v separator size_max_k keepseparator = Some (Ok c)
     /\ whole_ c = v
     /\ reassemble keepseparator separator (parts_bytes c) = content v)
  /\ (forall b, exists c, splitlines v keepseparator b size_max_k = Ok c
     /\ whole_ c = v
     /\ reassemble keepseparator [b] (parts_bytes c) = content v).
Proof.
  intros Hwf Hsep Hsz Hfuel. pose proof (content_length v Hwf) as Hc.
  pose proof (wf_view_len v Hwf) as Hl. split.
  - eexists. split; [|split].
    + apply split_scan; try assumption.
      * reflexivity.
      * apply split_delegates_default.
      * pose proof (scan_length_le separator keepseparator Hsep
                      (length (content v)) (ptr (span v)) (content v) ltac:(lia)).
        size_arith.
    + reflexivity.
    + now apply parts_reassemble.
  - intros b. eexists. split; [|split].
    + apply splitlines_scan; [assumption|].
      pose proof (count_byte_in_le (content v) b). size_arith.
    + reflexivity.
    + now apply parts_reassemble.
Qed.

Lemma split_parts_reassemble_witness :
  let v := str "a,bb,,c"%string in
  (exists c, split 7 v (bytes_of ","%string) size_max_k false = Some (Ok c)
     /\ whole_ c = v
     /\ reassemble false (bytes_of ","%string) (parts_bytes c) = content v)
  /\ (forall b, exists c, splitlines v false b size_max_k = Ok c
     /\ whole_ c = v
     /\ reassemble false [b] (parts_bytes c) = content v).
Proof.
  intros v. apply (split_parts_reassemble 7 v (bytes_of ","%string) false).
  - apply wf_view_owner. vm_compute. discriminate.
  - discriminate.
  - vm_compute. discriminate.
  - vm_compute. lia.
Defined.

Example split_scenario :
  (match split 7 (str "a,bb,,c"%string) (bytes_of ","%string) size_max_k false with
   | Some (Ok c) => Some (parts_bytes c)
   | _ => None
   end)
  = Some [bytes_of "a"%string; bytes_of "bb"%string; []; bytes_of "c"%string].
Proof. reflexivity. Qed.

Example splitlines_scenario :
  (let* c := splitlines (py_str_t {| base := 4096;
                                     bytes := bytes_of "line1"%string ++ [x0a]
                                              ++ bytes_of "line2"%string ++ [x0a] |})
               false x0a size_max_k in
   Ok (parts_bytes c))
  = Ok [bytes_of "line1"%string; bytes_of "line2"%string; []].
Proof. reflexivity. Qed.

(** With the default cap the loop of [split] and [splitlines] cut a view at
    a separator byte into the same parts. *)
Lemma split_matches_splitlines fuel v c keep :
  wf_view v -> (length (content v) <= fuel)%nat ->
  split fuel v [c] size_max_k keep = Some (splitlines v keep c size_max_k).
Proof.
  intros Hwf Hfuel. pose proof (content_length v Hwf) as Hc.
  pose proof (wf_view_len v Hwf) as Hl.
  rewrite splitlines_scan; [|assumption|].
  - apply split_scan; try assumption; try discriminate; try reflexivity.
    assert (Hsep : [c] <> []) by discriminate.
    pose proof (scan_length_le [c] keep Hsep
                  (length (content v)) (ptr (span v)) (content v) ltac:(lia)).
    size_arith.
  - pose proof (count_byte_in_le (content v) c). size_arith.
Qed.

(** C7 (the code departs from the claim): with the cap left at its default
    [size_max_k], [split] does not go to [splitlines] on a one-byte
    separator.  The test compares [maxsplit] with [ssize_max_k], which is
    not the default of the binding, so the loop of [split] runs; only a
    caller passing exactly [ssize_max_k] reaches [splitlines]. *)
Theorem split_default_cap_skips_splitlines c :
  split_delegates [c] size_max_k = false
  /\ split_delegates [c] ssize_max_k = true
  /\ size_max_k <> ssize_max_k.
Proof. repeat split. discriminate. Qed.

(** A text whose last byte is the separator byte ends on a separator. *)
Lemma find_byte_in_app_hit t c : (find_byte_in (t ++ [c]) c < length (t ++ [c]))%nat.
Proof.
  induction t as [|b t IH]; cbn [app find_byte_in length].
  - rewrite (proj2 (byte_eqb_eq c c) eq_refl). lia.
  - destruct (Byte.eqb b c); lia.
Qed.

Lemma first_at_find_seq t n :
  (find_seq_in t n < length t)%nat -> first_at t n (find_seq_in t n).
Proof.
  intros H. split; [now apply find_seq_in_found|].
  intros j Hj. now apply find_seq_in_first.
Qed.

Lemma last_byte_ends_on_separator c :
  forall n t, (length t <= n)%nat -> exists k, ends_on_separator [c] (t ++ [c]) (S k).
Proof.
  induction n as [|n IH]; intros t Hn;
    pose proof (find_byte_in_app_hit t c) as Hhit;
    rewrite <- find_seq_in_single in Hhit;
    pose proof (first_at_find_seq _ _ Hhit) as Hfirst;
    set (off := find_seq_in (t ++ [c]) [c]) in *;
    rewrite length_app in Hhit; cbn [length] in Hhit;
    (destruct (Nat.eq_dec (off + 1)%nat (length (t ++ [c]))) as [E|E];
     [exists O; now apply (ends_here [c] _ off)|]);
    rewrite length_app in E; cbn [length] in E.
  - exfalso. lia.
  - destruct (IH (drop (off + 1)%nat t)) as [k Hk].
    { rewrite length_drop. lia. }
    exists (S k). apply (ends_later [c] _ off); [assumption| |].
    + rewrite length_app. cbn [length]. lia.
    + cbn [length]. rewrite drop_app_le by lia. exact Hk.
Qed.

(** C8: when the text ends exactly on a separator occurrence (the scan
    from the left, locating each separator at its first occurrence in what
    remains, finds its [k]-th and last one ending at the end of the text) and
    the cap leaves room for the [k + 1] parts, [split] with a non-empty
    separator returns one part per separator followed by one more, empty,
    trailing part. *)
Theorem split_trailing_separator fuel v separator maxsplit keepseparator k :
  wf_view v -> separator <> [] -> sv_size separator <= ssize_max_k ->
  ends_on_separator separator (content v) k ->
  Z.of_nat k < maxsplit <= size_max_k ->
  (length (content v) <= fuel)%nat ->
  exists c,
    split fuel v separator maxsplit keepseparator = Some (Ok c)
    /\ whole_ c = v
    /\ length (parts_ c) = S k
    /\ last (parts_ c) = Some empty_span
    /\ last (parts_bytes c) = Some [].
Proof.
  intros Hwf Hsep Hsz Hends Hcap Hfuel.
  destruct (scan_ends separator keepseparator (content v) k Hsep Hends (ptr (span v)))
    as (cuts & Hscan & Hlen).
  exists {| whole_ := v; parts_ := cuts ++ [empty_span] |}.
  split; [|split; [reflexivity|split; [|split]]].
  - rewrite <- Hscan.
    destruct (split_delegates separator maxsplit) eqn:Hdel.
    + (* one byte and the cap at [ssize_max_k]: the work is done by [splitlines] *)
      unfold split. rewrite Hdel. f_equal.
      unfold split_delegates in Hdel. apply andb_true_iff in Hdel.
      destruct Hdel as [H1 _].
      destruct separator as [|b [|b' sep]]; [congruence| |];
        [|unfold sv_size in H1; cbn [length] in H1; absurd_arith].
      unfold front. cbn [hd]. apply splitlines_scan; [assumption|].
      rewrite (ends_count b (content v) k Hends). lia.
    + apply split_scan; try assumption; [lia|].
      rewrite Hscan, length_app, Hlen. cbn [length]. lia.
  - cbn [parts_]. rewrite length_app, Hlen. cbn [length]. lia.
  - cbn [parts_]. apply last_snoc.
  - unfold parts_bytes. cbn [parts_ whole_]. rewrite map_app. cbn [map].
    apply last_snoc.
Qed.

Lemma split_trailing_separator_witness :
  let v := str "a--b--"%string in
  exists c,
    split 6 v (bytes_of "--"%string) size_max_k false = Some (Ok c)
    /\ whole_ c = v
    /\ length (parts_ c) = 3%nat
    /\ last (parts_ c) = Some empty_span
    /\ last (parts_bytes c) = Some [].
Proof.
  intros v.
  apply (split_trailing_separator 6 v (bytes_of "--"%string) size_max_k false 2).
  - apply wf_view_owner. vm_compute. discriminate.
  - discriminate.
  - vm_compute. discriminate.
  - apply (ends_later _ _ 1).
    + split; [reflexivity|]. intros j Hj. assert (j = 0)%nat as -> by lia.
      vm_compute. discriminate.
    + vm_compute. lia.
    + apply (ends_here _ _ 1).
      * split; [reflexivity|]. intros j Hj. assert (j = 0)%nat as -> by lia.
        vm_compute. discriminate.
      * reflexivity.
  - vm_compute. split; [reflexivity | discriminate].
  - vm_compute. lia.
Defined.

(** On "a,b," the parts are "a", "b" and the empty trailing part; on "aaa"
    cut at "aa" the scan locates one separator, at 0, and what is left is
    "a": the text does not end on a separator occurrence of the scan. *)
Example split_trailing_examples :
  (match split 4 (str "a,b,"%string) (bytes_of ","%string) size_max_k false with
   | Some (Ok c) => Some (parts_bytes c)
   | _ => None
   end) = Some [bytes_of "a"%string; bytes_of "b"%string; []]
  /\ (match split 3 (str "aaa"%string) (bytes_of "aa"%string) size_max_k false with
      | Some (Ok c) => Some (parts_bytes c)
      | _ => None
      end) = Some [[]; bytes_of "a"%string].
Proof. split; reflexivity. Qed.

(** * Further properties *)

(** ** The single-index resolver and element access *)

Lemma unsigned_offset_in_range length idx :
  0 <= length <= ssize_max_k -> - length <= idx <= length ->
  unsigned_offset length idx = Ok (if 0 <=? idx then idx else length + idx).
Proof.
  intros Hl Hi. unfold unsigned_offset.
  destruct (0 <=? idx) eqn:E; bool_to_prop.
  - rewrite to_size_small by size_arith.
    destruct (length <? idx) eqn:E2; [absurd_arith | reflexivity].
  - rewrite (to_size_small (- idx)) by size_arith.
    destruct (length <? - idx) eqn:E2; [absurd_arith|].
    now rewrite to_size_small by size_arith.
Qed.

Lemma unsigned_offset_out length idx :
  0 <= length <= ssize_max_k -> - 2 ^ 63 <= idx <= ssize_max_k ->
  length < idx \/ idx < - length ->
  unsigned_offset length idx = Throw out_of_range.
Proof.
  intros Hl Hi Hout. unfold unsigned_offset.
  destruct (0 <=? idx) eqn:E; bool_to_prop.
  - rewrite to_size_small by size_arith.
    destruct (length <? idx) eqn:E2; [reflexivity | absurd_arith].
  - rewrite (to_size_small (- idx)) by size_arith.
    destruct (length <? - idx) eqn:E2; [reflexivity | absurd_arith].
Qed.

(** X1: an index between [-length] and [length] resolves: a non-negative
    one to itself, a negative one to [length + idx], counted from the end.
    The index [length] itself is among those that resolve. *)
Theorem unsigned_offset_resolves length idx :
  0 <= length <= ssize_max_k -> - length <= idx <= length ->
  exists k, unsigned_offset length idx = Ok k
    /\ 0 <= k <= length
    /\ k = (if 0 <=? idx then idx else length + idx).
Proof.
  intros Hl Hi. eexists. split; [now apply unsigned_offset_in_range|].
  destruct (0 <=? idx) eqn:E; bool_to_prop; lia.
Qed.

Lemma unsigned_offset_resolves_witness :
  exists k, unsigned_offset 5 (-2) = Ok k
    /\ 0 <= k <= 5
    /\ k = (if 0 <=? -2 then -2 else 5 + -2).
Proof.
  apply (unsigned_offset_resolves 5 (-2)); unfold ssize_max_k; lia.
Defined.

(** X2: an index that fits [ssize_t] is rejected with [out_of_range]
    exactly when it lies above [length] or below [-length]. *)
Theorem unsigned_offset_rejects length idx :
  0 <= length <= ssize_max_k -> - 2 ^ 63 <= idx <= ssize_max_k ->
  unsigned_offset length idx = Throw out_of_range
  <-> (length < idx \/ idx < - length).
Proof.
  intros Hl Hi. split.
  - intros H. destruct (Z_lt_le_dec length idx) as [?|?]; [now left|].
    destruct (Z_lt_le_dec idx (- length)) as [?|?]; [now right|].
    rewrite unsigned_offset_in_range in H by lia. discriminate.
  - now apply unsigned_offset_out.
Qed.

Lemma unsigned_offset_rejects_witness :
  unsigned_offset 5 (-6) = Throw out_of_range <-> (5 < -6 \/ -6 < - 5).
Proof.
  apply (unsigned_offset_rejects 5 (-6)); unfold ssize_max_k; lia.
Defined.

Lemma vec_get_lookup parts k p :
  parts !! k = Some p -> vec_get parts (Z.of_nat k) = Ok p.
Proof.
  intros H. pose proof (lookup_lt_Some _ _ _ H) as Hk.
  unfold vec_get, vec_size. rewrite Nat2Z.id, H.
  destruct (_ && _) eqn:E; [reflexivity|].
  apply andb_false_iff in E. destruct E; absurd_arith.
Qed.

(** X3: in a collection, the index [k] of a part and the same place counted
    from the end, [k - len], both give a sub-view on that part, pointing
    back at the view that was split. *)
Theorem spans_at_index c k p :
  vec_size (parts_ c) <= ssize_max_k -> parts_ c !! k = Some p ->
  spans_at c (Z.of_nat k) = Ok (py_subspan_t (whole_ c) p)
  /\ spans_at c (Z.of_nat k - vec_size (parts_ c)) = Ok (py_subspan_t (whole_ c) p).
Proof.
  intros Hs Hp. pose proof (lookup_lt_Some _ _ _ Hp) as Hk.
  assert (Hn : vec_size (parts_ c) = Z.of_nat (length (parts_ c))) by reflexivity.
  unfold spans_at. rewrite spans_size_small by assumption. split.
  - rewrite unsigned_offset_in_range by lia.
    destruct (0 <=? Z.of_nat k) eqn:E; [|absurd_arith].
    cbn [bind]. now rewrite (vec_get_lookup _ _ _ Hp).
  - rewrite unsigned_offset_in_range by lia.
    destruct (0 <=? Z.of_nat k - vec_size (parts_ c)) eqn:E; [absurd_arith|].
    replace (vec_size (parts_ c) + (Z.of_nat k - vec_size (parts_ c)))
      with (Z.of_nat k) by lia.
    cbn [bind]. now rewrite (vec_get_lookup _ _ _ Hp).
Qed.

Lemma spans_at_index_witness :
  let c := {| whole_ := str "a,b"%string;
              parts_ := [ {| ptr := 4096; len := 1 |}; {| ptr := 4098; len := 1 |} ] |} in
  spans_at c (Z.of_nat 1) = Ok (py_subspan_t (whole_ c) {| ptr := 4098; len := 1 |})
  /\ spans_at c (Z.of_nat 1 - vec_size (parts_ c))
     = Ok (py_subspan_t (whole_ c) {| ptr := 4098; len := 1 |}).
Proof.
  intros c. apply (spans_at_index c 1 {| ptr := 4098; len := 1 |}).
  - vm_compute. discriminate.
  - reflexivity.
Defined.

Lemma byte_at_lookup v k b :
  wf_view v -> content v !! k = Some b ->
  load (owner v) {| ptr := ptr (span v) + Z.of_nat k; len := 1 |} = Ok [b].
Proof.
  intros Hwf Hb. pose proof (lookup_lt_Some _ _ _ Hb) as Hk.
  pose proof (content_length v Hwf) as Hc.
  rewrite load_within by first [assumption | lia].
  rewrite Nat2Z.id. change (Z.to_nat 1) with 1%nat.
  f_equal. rewrite <- (take_drop_middle _ _ _ Hb) at 1.
  rewrite drop_app_length' by (rewrite length_take; lia). reflexivity.
Qed.

(** X4: on a view, the index [k] of a byte and the same place counted from
    the end, [k - len], both read that byte. *)
Theorem byte_at_index v k b :
  wf_view v -> content v !! k = Some b ->
  byte_at v (Z.of_nat k) = Ok b
  /\ byte_at v (Z.of_nat k - len (span v)) = Ok b.
Proof.
  intros Hwf Hb. pose proof (lookup_lt_Some _ _ _ Hb) as Hk.
  pose proof (content_length v Hwf) as Hc.
  pose proof (wf_view_len v Hwf) as Hl.
  unfold byte_at. split.
  - rewrite unsigned_offset_in_range by lia.
    destruct (0 <=? Z.of_nat k) eqn:E; [|absurd_arith].
    cbn [bind]. now rewrite (byte_at_lookup v k b).
  - rewrite unsigned_offset_in_range by lia.
    destruct (0 <=? Z.of_nat k - len (span v)) eqn:E; [absurd_arith|].
    replace (len (span v) + (Z.of_nat k - len (span v))) with (Z.of_nat k) by lia.
    cbn [bind]. now rewrite (byte_at_lookup v k b).
Qed.

Lemma byte_at_index_witness :
  byte_at (str "hello"%string) (Z.of_nat 1) = Ok "e"%byte
  /\ byte_at (str "hello"%string) (Z.of_nat 1 - len (span (str "hello"%string)))
     = Ok "e"%byte.
Proof.
  apply (byte_at_index (str "hello"%string) 1 "e"%byte).
  - apply wf_view_owner. vm_compute. discriminate.
  - reflexivity.
Defined.

(** X5: element access further than the length away from zero, in either
    direction, throws [out_of_range], on a view and on a collection. *)
Theorem access_out_of_range v c idx :
  wf_view v -> vec_size (parts_ c) <= ssize_max_k ->
  - 2 ^ 63 <= idx <= ssize_max_k ->
  (len (span v) < idx \/ idx < - len (span v) -> byte_at v idx = Throw out_of_range)
  /\ (vec_size (parts_ c) < idx \/ idx < - vec_size (parts_ c) ->
      spans_at c idx = Throw out_of_range).
Proof.
  intros Hwf Hs Hi. pose proof (wf_view_len v Hwf) as Hl. split; intros Hout.
  - unfold byte_at. now rewrite unsigned_offset_out by assumption.
  - unfold spans_at. rewrite spans_size_small by assumption.
    rewrite unsigned_offset_out; [reflexivity| |assumption|assumption].
    unfold vec_size in *. lia.
Qed.

Lemma access_out_of_range_witness :
  let v := str "hello"%string in
  let c := {| whole_ := v; parts_ := [ {| ptr := 4096; len := 5 |} ] |} in
  (len (span v) < 7 \/ 7 < - len (span v) -> byte_at v 7 = Throw out_of_range)
  /\ (vec_size (parts_ c) < 7 \/ 7 < - vec_size (parts_ c) ->
      spans_at c 7 = Throw out_of_range).
Proof.
  intros v c. apply (access_out_of_range v c 7).
  - apply wf_view_owner. vm_compute. discriminate.
  - vm_compute. discriminate.
  - unfold ssize_max_k. lia.
Defined.

(** X6: on a view that stops short of the end of its owner, the index equal
    to the length is not rejected: the byte that follows the view in the
    owner is read. *)
Theorem byte_at_length_reads_next v b :
  wf_view v ->
  bytes (owner v) !! Z.to_nat (ptr (span v) + len (span v) - base (owner v)) = Some b ->
  byte_at v (len (span v)) = Ok b.
Proof.
  intros Hwf Hb. pose proof (lookup_lt_Some _ _ _ Hb) as Hk.
  pose proof (wf_view_len v Hwf) as Hl.
  destruct Hwf as [(H1 & H2 & H3) Hm].
  unfold byte_at. rewrite unsigned_offset_in_range by lia.
  destruct (0 <=? len (span v)) eqn:E; [|absurd_arith].
  cbn [bind]. unfold load. cbn [len ptr].
  change (1 =? 0) with false. cbv iota.
  unfold in_boundsb, buffer_size in *. cbn [len ptr].
  destruct (_ && _) eqn:E2.
  - cbn [bind]. f_equal. change (Z.to_nat 1) with 1%nat.
    rewrite <- (take_drop_middle _ _ _ Hb).
    rewrite drop_app_length' by (rewrite length_take; lia). reflexivity.
  - exfalso. apply andb_false_iff in E2. destruct E2 as [E2|E2].
    + apply andb_false_iff in E2. destruct E2; bool_to_prop; lia.
    + bool_to_prop. lia.
Qed.

Lemma byte_at_length_reads_next_witness :
  byte_at (py_subspan_t (str "hello"%string) {| ptr := 4096; len := 2 |})
    (len (span (py_subspan_t (str "hello"%string) {| ptr := 4096; len := 2 |})))
  = Ok "l"%byte.
Proof.
  apply (byte_at_length_reads_next
           (py_subspan_t (str "hello"%string) {| ptr := 4096; len := 2 |}) "l"%byte).
  - split; [|vm_compute; discriminate].
    unfold in_bounds. vm_compute. repeat split; discriminate.
  - reflexivity.
Defined.

(** ** Sub-views on ordered requests *)

Lemma sub_ordered v start end_ :
  wf_view v -> 0 <= start <= end_ ->
  sub v start end_ =
    Ok (py_subspan_t v
          {| ptr := ptr (span v) + Z.min start (len (span v));
             len := Z.min end_ (len (span v)) - Z.min start (len (span v)) |}).
Proof.
  intros Hwf Hs. pose proof (wf_view_len v Hwf) as Hl.
  unfold sub. rewrite size_wf by assumption.
  now rewrite unsigned_slice_ordered by assumption.
Qed.

(** X7: for [0 <= start <= end], [sub] returns a sub-view that reads the
    bytes of the view between the two bounds, each clamped to the length,
    and that lies inside the owner. *)
Theorem sub_content v start end_ :
  wf_view v -> 0 <= start <= end_ ->
  exists s, sub v start end_ = Ok s
    /\ content s = slice v start end_
    /\ wf_view s.
Proof.
  intros Hwf Hs. pose proof (wf_view_len v Hwf) as Hl.
  rewrite sub_ordered by assumption. eexists. split; [reflexivity|]. split.
  - unfold content at 1. cbn [owner span].
    rewrite span_bytes_within by first [assumption | lia]. reflexivity.
  - eapply sub_ordered_wf; [exact Hwf | exact Hs |].
    now apply sub_ordered.
Qed.

Lemma sub_content_witness :
  exists s, sub (str "hello world"%string) 6 ssize_max_k = Ok s
    /\ content s = slice (str "hello world"%string) 6 ssize_max_k
    /\ wf_view s.
Proof.
  apply (sub_content (str "hello world"%string) 6 ssize_max_k).
  - apply wf_view_owner. vm_compute. discriminate.
  - vm_compute. split; discriminate.
Defined.

(** X8: [sub] from 0 to the length, or to anything beyond it, covers the
    view: same span, same bytes. *)
Theorem sub_whole v end_ :
  wf_view v -> len (span v) <= end_ ->
  exists s, sub v 0 end_ = Ok s
    /\ span s = span v
    /\ content s = content v.
Proof.
  intros Hwf He. pose proof (wf_view_len v Hwf) as Hl.
  rewrite sub_ordered by first [assumption | lia].
  rewrite Z.min_l, Z.min_r by lia. rewrite Z.add_0_r, Z.sub_0_r.
  assert (Hsp : {| ptr := ptr (span v); len := len (span v) |} = span v)
    by now destruct (span v).
  rewrite Hsp. eexists. split; [reflexivity|]. split; reflexivity.
Qed.

Lemma sub_whole_witness :
  exists s, sub (str "hello"%string) 0 ssize_max_k = Ok s
    /\ span s = span (str "hello"%string)
    /\ content s = content (str "hello"%string).
Proof.
  apply (sub_whole (str "hello"%string) ssize_max_k).
  - apply wf_view_owner. vm_compute. discriminate.
  - vm_compute. discriminate.
Defined.

(** X9: [sub] composes by adding offsets.  Cutting [c, d) out of the
    sub-view [a, b) of a view covers the same span, and the same bytes, as
    cutting [a + c, a + d) out of the view itself. *)
Theorem sub_of_sub v a b c d :
  wf_view v -> 0 <= a <= b -> b <= len (span v) -> 0 <= c <= d -> d <= b - a ->
  exists s1 s2 s3,
    sub v a b = Ok s1 /\ sub s1 c d = Ok s2 /\ sub v (a + c) (a + d) = Ok s3
    /\ span s2 = span s3 /\ content s2 = content s3.
Proof.
  intros Hwf Hab Hb Hcd Hd. pose proof (wf_view_len v Hwf) as Hl.
  destruct (sub v a b) as [s1| |] eqn:Hs1;
    try (rewrite sub_ordered in Hs1 by assumption; discriminate).
  pose proof (sub_ordered_wf v a b s1 Hwf Hab Hs1) as Hwf1.
  pose proof Hs1 as Hs1'. rewrite sub_ordered in Hs1' by assumption.
  injection Hs1' as Hs1'.
  assert (Hspan1 : span s1 = {| ptr := ptr (span v) + a; len := b - a |}).
  { rewrite <- Hs1'. cbn [span]. f_equal; lia. }
  exists s1.
  rewrite (sub_ordered s1 c d) by assumption.
  rewrite (sub_ordered v (a + c) (a + d)) by first [assumption | lia].
  do 2 eexists. split; [reflexivity|]. split; [reflexivity|]. split; [reflexivity|].
  assert (Hsp : span (py_subspan_t s1
                  {| ptr := ptr (span s1) + Z.min c (len (span s1));
                     len := Z.min d (len (span s1)) - Z.min c (len (span s1)) |})
                = span (py_subspan_t v
                  {| ptr := ptr (span v) + Z.min (a + c) (len (span v));
                     len := Z.min (a + d) (len (span v))
                            - Z.min (a + c) (len (span v)) |})).
  { cbn [span]. rewrite Hspan1. cbn [ptr len]. f_equal; lia. }
  split; [exact Hsp|].
  unfold content. rewrite Hsp. cbn [owner]. rewrite <- Hs1'. reflexivity.
Qed.

Lemma sub_of_sub_witness :
  exists s1 s2 s3,
    sub (str "hello world"%string) 2 9 = Ok s1 /\ sub s1 1 4 = Ok s2
    /\ sub (str "hello world"%string) (2 + 1) (2 + 4) = Ok s3
    /\ span s2 = span s3 /\ content s2 = content s3.
Proof.
  apply (sub_of_sub (str "hello world"%string) 2 9 1 4); try lia.
  - apply wf_view_owner. vm_compute. discriminate.
  - vm_compute. discriminate.
Defined.

(** ** Searching between bounds *)

(** X10: a negative start or end is refused with [invalid_argument]: by
    [contains], [find] and [count] on any non-empty needle, by [sub] on a
    view and by [sub] on a collection. *)
Theorem negative_bounds_rejected v c needle start end_ allowoverlap :
  needle <> [] -> start < 0 \/ end_ < 0 ->
  contains v needle start end_ = Throw invalid_argument
  /\ find v needle start end_ = Throw invalid_argument
  /\ count v needle start end_ allowoverlap = Throw invalid_argument
  /\ sub v start end_ = Throw invalid_argument
  /\ spans_sub c start end_ = Throw invalid_argument.
Proof.
  intros Hn Hneg.
  assert (E0 : (sv_size needle =? 0) = false).
  { destruct needle; [congruence|]. unfold sv_size. cbn [length].
    apply Z.eqb_neq. lia. }
  unfold contains, find, count, sub, spans_sub, subspan. rewrite E0.
  rewrite !unsigned_slice_negative by assumption. repeat split.
Qed.

Lemma negative_bounds_rejected_witness :
  let v := str "hello"%string in
  let c := {| whole_ := v; parts_ := [ {| ptr := 4096; len := 5 |} ] |} in
  contains v (bytes_of "l"%string) (-1) 3 = Throw invalid_argument
  /\ find v (bytes_of "l"%string) (-1) 3 = Throw invalid_argument
  /\ count v (bytes_of "l"%string) (-1) 3 false = Throw invalid_argument
  /\ sub v (-1) 3 = Throw invalid_argument
  /\ spans_sub c (-1) 3 = Throw invalid_argument.
Proof.
  intros v c. apply (negative_bounds_rejected v c (bytes_of "l"%string) (-1) 3 false).
  - discriminate.
  - left. lia.
Defined.

Lemma contains_ordered v needle start end_ :
  wf_view v -> needle <> [] -> 0 <= start <= end_ ->
  contains v needle start end_
  = Ok (negb (Z.of_nat (find_seq_in (slice v start end_) needle)
              =? Z.of_nat (length (slice v start end_)))).
Proof.
  intros Hwf Hn Hs. pose proof (wf_view_len v Hwf) as Hl.
  unfold contains.
  destruct (sv_size needle =? 0) eqn:E0.
  { destruct needle; [congruence|]. unfold sv_size in E0. cbn [length] in E0.
    absurd_arith. }
  destruct (subspan (span v) start end_) as [part| |] eqn:Hsub;
    try (rewrite subspan_ordered in Hsub by lia; discriminate).
  destruct (find_offset v needle start end_ part) as [Hoff Hlen]; try assumption.
  cbn [bind]. rewrite Hoff. cbn [bind]. now rewrite Hlen.
Qed.

Lemma occurs_iff_found t n :
  n <> [] ->
  (exists i, occurs_at t n i) <-> (find_seq_in t n < length t)%nat.
Proof.
  intros Hn. pose proof (find_seq_in_le t n) as Hle. split.
  - intros [i Hi].
    destruct (Nat.eq_dec (find_seq_in t n) (length t)) as [E|E]; [|lia].
    exfalso. now apply (find_seq_in_absent t n i Hn E).
  - intros H. eexists. now apply find_seq_in_found.
Qed.

(** X11: for a non-empty needle and [0 <= start <= end], [contains] answers
    true exactly when the needle occurs somewhere in the bytes between the
    clamped bounds, and exactly when [find] does not answer -1. *)
Theorem contains_iff_occurs v needle start end_ :
  wf_view v -> needle <> [] -> 0 <= start <= end_ ->
  exists b r,
    contains v needle start end_ = Ok b
    /\ find v needle start end_ = Ok r
    /\ (b = true <-> exists i, occurs_at (slice v start end_) needle i)
    /\ (b = true <-> r <> -1).
Proof.
  intros Hwf Hn Hs. pose proof (wf_view_len v Hwf) as Hl.
  rewrite contains_ordered by assumption.
  unfold find.
  destruct (sv_size needle =? 0) eqn:E0.
  { destruct needle; [congruence|]. unfold sv_size in E0. cbn [length] in E0.
    absurd_arith. }
  destruct (subspan (span v) start end_) as [part| |] eqn:Hsub;
    try (rewrite subspan_ordered in Hsub by lia; discriminate).
  destruct (find_offset v needle start end_ part) as [Hoff Hlen]; try assumption.
  cbn [bind]. rewrite Hoff. cbn [bind]. rewrite Hlen.
  pose proof (find_seq_in_le (slice v start end_) needle) as Hle.
  pose proof (slice_length v start end_ Hwf Hs) as Hsl.
  set (t := slice v start end_) in *.
  do 2 eexists. split; [reflexivity|]. split; [reflexivity|].
  rewrite (occurs_iff_found t needle Hn).
  destruct (Z.of_nat (find_seq_in t needle) =? Z.of_nat (length t)) eqn:E;
    cbn [negb]; bool_to_prop.
  - split; split; intros H; try discriminate; try lia.
  - rewrite to_ssize_small by size_arith.
    split; split; intros H; try reflexivity; lia.
Qed.

Lemma contains_iff_occurs_witness :
  exists b r,
    contains (str "hello world"%string) (bytes_of "wor"%string) 3 ssize_max_k = Ok b
    /\ find (str "hello world"%string) (bytes_of "wor"%string) 3 ssize_max_k = Ok r
    /\ (b = true <-> exists i,
          occurs_at (slice (str "hello world"%string) 3 ssize_max_k)
            (bytes_of "wor"%string) i)
    /\ (b = true <-> r <> -1).
Proof.
  apply (contains_iff_occurs (str "hello world"%string) (bytes_of "wor"%string)
           3 ssize_max_k).
  - apply wf_view_owner. vm_compute. discriminate.
  - discriminate.
  - vm_compute. split; discriminate.
Defined.

Lemma slice_all v :
  wf_view v -> slice v 0 ssize_max_k = content v.
Proof.
  intros Hwf. pose proof (wf_view_len v Hwf) as Hl.
  pose proof (content_length v Hwf) as Hc.
  unfold slice. rewrite (Z.min_l 0), (Z.min_r ssize_max_k) by lia.
  change (Z.to_nat 0) with 0%nat. rewrite drop_0, take_ge by lia. reflexivity.
Qed.

(** X12: the [in] operator on a view answers true exactly when the needle
    occurs somewhere in the view; the empty needle occurs in every view. *)
Theorem contains_operator_iff_occurs v needle :
  wf_view v ->
  exists b, contains_operator v needle = Ok b
    /\ (b = true <-> exists i, occurs_at (content v) needle i).
Proof.
  intros Hwf. unfold contains_operator.
  destruct needle as [|c needle].
  - exists true. split; [reflexivity|]. split; [|reflexivity].
    intros _. exists 0%nat. reflexivity.
  - assert (Hn : c :: needle <> []) by discriminate.
    rewrite contains_ordered by first [assumption | size_arith].
    rewrite slice_all by assumption.
    pose proof (find_seq_in_le (content v) (c :: needle)) as Hle.
    eexists. split; [reflexivity|].
    rewrite (occurs_iff_found _ _ Hn).
    destruct (_ =? _) eqn:E; cbn [negb]; bool_to_prop;
      split; intros H; try discriminate; try reflexivity; lia.
Qed.

Lemma contains_operator_iff_occurs_witness :
  exists b, contains_operator (str "hello"%string) (bytes_of "ll"%string) = Ok b
    /\ (b = true <-> exists i,
          occurs_at (content (str "hello"%string)) (bytes_of "ll"%string) i).
Proof.
  apply (contains_operator_iff_occurs (str "hello"%string) (bytes_of "ll"%string)).
  apply wf_view_owner. vm_compute. discriminate.
Defined.

(** ** What [splitlines] and [split] return *)

Lemma count_substr_char_nonneg m h c k :
  count_substr_char m h c = Ok k -> 0 <= k.
Proof.
  unfold count_substr_char, strzl_naive_count_char.
  destruct (load m h); cbn [bind]; try discriminate. intros [= <-]. lia.
Qed.

(** A call of [splitlines] that returns had room for every part. *)
Lemma splitlines_ok_cap v keep sep maxsplit c k :
  splitlines v keep sep maxsplit = Ok c ->
  count_substr_char (owner v) (span v) sep = Ok k ->
  whole_ c = v /\ vec_size (parts_ c) = k + 1 /\ k + 1 <= maxsplit.
Proof.
  intros Hsl Hk. pose proof (count_substr_char_nonneg _ _ _ _ Hk) as Hk0.
  unfold splitlines in Hsl. rewrite Hk in Hsl. cbn [bind] in Hsl.
  destruct (splitlines_loop _ _ _ _ _ _ _) as [[parts' ls']| |] eqn:Hloop;
    cbn [bind] in Hsl; try discriminate.
  apply splitlines_loop_length in Hloop. rewrite length_replicate in Hloop.
  destruct (vec_set parts' k (after_n v ls')) as [parts''| |] eqn:Hset;
    cbn [bind] in Hsl; try discriminate.
  injection Hsl as <-. cbn [whole_ parts_].
  pose proof (vec_set_length _ _ _ _ Hset) as Hlen.
  unfold vec_set in Hset.
  destruct ((0 <=? k) && (k <? vec_size parts')) eqn:E; [|discriminate].
  apply andb_true_iff in E. destruct E as [_ E]. bool_to_prop.
  unfold vec_size in *. rewrite Hlen. rewrite Hloop in E |- *.
  assert (Hmod : to_size (k + 1) <= k + 1).
  { unfold to_size. apply Z.mod_le; unfold size_modulus; lia. }
  split; [reflexivity|]. lia.
Qed.

(** X13: whenever [splitlines] returns, it returns one part more than there
    are separator bytes in the view, and the cap was not below that number:
    a returned collection is never a truncated one. *)
Theorem splitlines_returns_every_part v keeplinebreaks separator maxsplit c k :
  splitlines v keeplinebreaks separator maxsplit = Ok c ->
  count_substr_char (owner v) (span v) separator = Ok k ->
  whole_ c = v /\ vec_size (parts_ c) = k + 1 /\ k + 1 <= maxsplit.
Proof. apply splitlines_ok_cap. Qed.

Lemma splitlines_returns_every_part_witness :
  let v := str "a,bb,,c"%string in
  let c := {| whole_ := v;
              parts_ := [ {| ptr := 4096; len := 1 |}; {| ptr := 4098; len := 2 |};
                          {| ptr := 4101; len := 0 |}; {| ptr := 4102; len := 1 |} ] |} in
  whole_ c = v /\ vec_size (parts_ c) = 3 + 1 /\ 3 + 1 <= 4.
Proof.
  intros v c.
  apply (splitlines_returns_every_part v false ","%byte 4 c 3); reflexivity.
Defined.

Lemma part_in_view_inside v o k :
  0 <= o -> 0 <= k -> o + k <= len (span v) ->
  part_in_view v {| ptr := ptr (span v) + o; len := k |}.
Proof. intros Ho Hk Hok. right. cbn [ptr len]. lia. Qed.

(** The parts of the reference scan lie inside the view. *)
Lemma scan_in_view v sep keep :
  wf_view v -> sep <> [] ->
  forall n ls, (length (content v) - ls <= n)%nat -> (ls <= length (content v))%nat ->
    Forall (part_in_view v)
      (scan sep keep (ptr (span v) + Z.of_nat ls) (drop ls (content v))).
Proof.
  intros Hwf Hsep. pose proof (content_length v Hwf) as Hc.
  induction n as [|n IH]; intros ls Hn Hls.
  - rewrite drop_ge by lia. rewrite scan_nil. repeat constructor.
  - pose proof (length_drop (content v) ls) as Hd.
    destruct (scan_cases sep (drop ls (content v))) as [E|[[Ht Hf]|Hf]].
    + rewrite E, scan_nil. repeat constructor.
    + rewrite scan_absent by assumption. constructor; [|constructor].
      apply part_in_view_inside; lia.
    + pose proof (found_fits _ _ Hf) as Hfit.
      assert (Hs1 : (1 <= length sep)%nat) by (destruct sep; [congruence | simpl; lia]).
      rewrite scan_found by assumption.
      set (t := drop ls (content v)) in *. set (off := find_seq_in t sep) in *.
      constructor.
      * apply part_in_view_inside; unfold sv_size; destruct keep; simpl Z.b2z; lia.
      * unfold t. rewrite drop_drop.
        replace (ptr (span v) + Z.of_nat ls + Z.of_nat off + sv_size sep)
          with (ptr (span v) + Z.of_nat (ls + (off + length sep)))
          by (unfold sv_size; lia).
        apply IH; lia.
Qed.

Lemma occurs_in_take t sep off j :
  sep <> [] -> occurs_at (take off t) sep j ->
  occurs_at t sep j /\ (j < off)%nat.
Proof.
  unfold occurs_at. intros Hsep H.
  assert (Hs1 : (1 <= length sep)%nat) by (destruct sep; [congruence | simpl; lia]).
  pose proof (f_equal length H) as Hl.
  rewrite length_take, length_drop, length_take in Hl.
  assert (Hj : (j + length sep <= off)%nat) by lia.
  split; [|lia].
  rewrite <- H at 2.
  replace off with (j + (off - j))%nat at 1 by lia.
  rewrite <- take_drop_commute, take_take.
  now rewrite Nat.min_l by lia.
Qed.

(** With the separators dropped, no part of the reference scan holds one. *)
Lemma scan_separator_free v sep :
  wf_view v -> sep <> [] ->
  forall n ls, (length (content v) - ls <= n)%nat -> (ls <= length (content v))%nat ->
    Forall (fun part => forall i, ~ occurs_at (span_bytes (owner v) part) sep i)
      (scan sep false (ptr (span v) + Z.of_nat ls) (drop ls (content v))).
Proof.
  intros Hwf Hsep. pose proof (content_length v Hwf) as Hc.
  assert (Hs1 : (1 <= length sep)%nat) by (destruct sep; [congruence | simpl; lia]).
  assert (Hnil : forall i, ~ occurs_at [] sep i).
  { intros i H. unfold occurs_at in H. rewrite drop_nil, take_nil in H. congruence. }
  induction n as [|n IH]; intros ls Hn Hls.
  - rewrite drop_ge by lia. rewrite scan_nil. constructor; [exact Hnil | constructor].
  - pose proof (length_drop (content v) ls) as Hd.
    destruct (scan_cases sep (drop ls (content v))) as [E|[[Ht Hf]|Hf]].
    + rewrite E, scan_nil. constructor; [exact Hnil | constructor].
    + rewrite scan_absent by assumption. constructor; [|constructor].
      rewrite span_bytes_within by first [assumption | lia].
      rewrite !Nat2Z.id, take_ge by lia.
      intros i. now apply find_seq_in_absent.
    + pose proof (found_fits _ _ Hf) as Hfit.
      rewrite scan_found by assumption.
      set (t := drop ls (content v)) in *. set (off := find_seq_in t sep) in *.
      constructor.
      * rewrite span_bytes_within by first [assumption | simpl Z.b2z; lia].
        fold t. simpl Z.b2z. rewrite Z.mul_0_r, Z.add_0_r, !Nat2Z.id.
        intros i Hi. apply occurs_in_take in Hi; [|assumption].
        destruct Hi as [Hi Hlt]. now apply (find_seq_in_first t sep i).
      * unfold t. rewrite drop_drop.
        replace (ptr (span v) + Z.of_nat ls + Z.of_nat off + sv_size sep)
          with (ptr (span v) + Z.of_nat (ls + (off + length sep)))
          by (unfold sv_size; lia).
        apply IH; lia.
Qed.

Lemma splitlines_ok_scan v keep b maxsplit c :
  wf_view v -> splitlines v keep b maxsplit = Ok c ->
  c = {| whole_ := v; parts_ := scan [b] keep (ptr (span v)) (content v) |}.
Proof.
  intros Hwf Hsl.
  destruct (splitlines_ok_cap v keep b maxsplit c _ Hsl
              (count_substr_char_whole v b Hwf)) as (_ & _ & Hcap).
  rewrite splitlines_scan in Hsl by assumption. congruence.
Qed.

Lemma scan_whole_in_view v sep keep :
  wf_view v -> sep <> [] ->
  Forall (part_in_view v) (scan sep keep (ptr (span v)) (content v)).
Proof.
  intros Hwf Hsep.
  pose proof (scan_in_view v sep keep Hwf Hsep (length (content v)) 0%nat) as H.
  change (Z.of_nat 0) with 0 in H. rewrite Z.add_0_r, drop_0 in H.
  apply H; lia.
Qed.

(** X14: whenever [splitlines] returns on a view, every part is the empty
    [span_t {}] or lies inside the view, and the parts give the bytes of the
    view back (joined with the separator byte where it was dropped, glued
    where it was kept), whatever the cap was. *)
Theorem splitlines_parts_cover_view v keeplinebreaks separator maxsplit c :
  wf_view v -> splitlines v keeplinebreaks separator maxsplit = Ok c ->
  Forall (part_in_view v) (parts_ c)
  /\ reassemble keeplinebreaks [separator] (parts_bytes c) = content v.
Proof.
  intros Hwf Hsl. rewrite (splitlines_ok_scan _ _ _ _ _ Hwf Hsl). split.
  - now apply scan_whole_in_view.
  - now apply parts_reassemble.
Qed.

Lemma splitlines_parts_cover_view_witness :
  let v := str "a,bb,,c"%string in
  let c := {| whole_ := v;
              parts_ := [ {| ptr := 4096; len := 2 |}; {| ptr := 4098; len := 3 |};
                          {| ptr := 4101; len := 1 |}; {| ptr := 4102; len := 1 |} ] |} in
  Forall (part_in_view v) (parts_ c)
  /\ reassemble true [","%byte] (parts_bytes c) = content v.
Proof.
  intros v c. apply (splitlines_parts_cover_view v true ","%byte 9 c).
  - apply wf_view_owner. vm_compute. discriminate.
  - reflexivity.
Defined.

(** ** [split] under any cap *)



Lemma after_n_bytes v ls :
  wf_view v ->
  span_bytes (owner v) (after_n v (Z.of_nat ls)) = drop ls (content v).
Proof.
  intros Hwf. pose proof (after_n_load v ls Hwf) as H.
  pose proof (after_n_len v ls Hwf) as Hl.
  pose proof (content_length v Hwf) as Hc.
  rewrite load_ok in H; [congruence|].
  unfold after_n in *. destruct (Z.of_nat ls <? len (span v)) eqn:E; [|now left].
  right. destruct Hwf as [(H1 & H2 & H3) _]. unfold in_bounds. cbn [ptr len].
  bool_to_prop. lia.
Qed.

Lemma after_n_in_view v ls : part_in_view v (after_n v (Z.of_nat ls)).
Proof.
  unfold after_n. destruct (Z.of_nat ls <? len (span v)) eqn:E; [|now left].
  apply part_in_view_inside; bool_to_prop; lia.
Qed.




Example split_capped_example :
  (match split 7 (str "a--b--c"%string) (bytes_of "--"%string) 2 false with
   | Some (Ok c) => Some (parts_bytes c)
   | _ => None
   end) = Some [bytes_of "a"%string; bytes_of "b--c"%string].
Proof. reflexivity. Qed.

Lemma scan_whole_separator_free v sep :
  wf_view v -> sep <> [] ->
  Forall (fun part => forall i, ~ occurs_at part sep i)
    (parts_bytes {| whole_ := v; parts_ := scan sep false (ptr (span v)) (content v) |}).
Proof.
  intros Hwf Hsep. unfold parts_bytes. cbn [whole_ parts_].
  apply Forall_map.
  pose proof (scan_separator_free v sep Hwf Hsep (length (content v)) 0%nat) as H.
  change (Z.of_nat 0) with 0 in H. rewrite Z.add_0_r, drop_0 in H.
  apply H; lia.
Qed.

(** X16: with the separators dropped, no part holds the separator: not
    those of [split] under the default cap, nor those of any call of
    [splitlines] that returns. *)
Theorem parts_hold_no_separator fuel v separator :
  wf_view v -> separator <> [] -> sv_size separator <= ssize_max_k ->
  (length (content v) <= fuel)%nat ->
  (exists c, split fuel v separator size_max_k false = Some (Ok c)
     /\ Forall (fun part => forall i, ~ occurs_at part separator i) (parts_bytes c))
  /\ (forall b maxsplit c, splitlines v false b maxsplit = Ok c ->
        Forall (fun part => forall i, ~ occurs_at part [b] i) (parts_bytes c)).
Proof.
  intros Hwf Hsep Hsz Hfuel. pose proof (content_length v Hwf) as Hc.
  pose proof (wf_view_len v Hwf) as Hl. split.
  - eexists. split.
    + apply split_scan; try assumption.
      * reflexivity.
      * apply split_delegates_default.
      * pose proof (scan_length_le separator false Hsep
                      (length (content v)) (ptr (span v)) (content v) ltac:(lia)).
        size_arith.
    + now apply scan_whole_separator_free.
  - intros b maxsplit c Hsl. rewrite (splitlines_ok_scan _ _ _ _ _ Hwf Hsl).
    now apply scan_whole_separator_free.
Qed.

Lemma parts_hold_no_separator_witness :
  let v := str "a--b--c"%string in
  (exists c, split 7 v (bytes_of "--"%string) size_max_k false = Some (Ok c)
     /\ Forall (fun part => forall i, ~ occurs_at part (bytes_of "--"%string) i)
          (parts_bytes c))
  /\ (forall b maxsplit c, splitlines v false b maxsplit = Ok c ->
        Forall (fun part => forall i, ~ occurs_at part [b] i) (parts_bytes c)).
Proof.
  intros v. apply (parts_hold_no_separator 7 v (bytes_of "--"%string)).
  - apply wf_view_owner. vm_compute. discriminate.
  - discriminate.
  - vm_compute. discriminate.
  - vm_compute. lia.
Defined.

Lemma absent_find t sep :
  (forall i, ~ occurs_at t sep i) -> find_seq_in t sep = length t.
Proof.
  intros Hno. pose proof (find_seq_in_le t sep) as Hle.
  destruct (Nat.eq_dec (find_seq_in t sep) (length t)) as [E|E]; [exact E|].
  exfalso. apply (Hno (find_seq_in t sep)). apply find_seq_in_found. lia.
Qed.

Lemma scan_whole_absent v sep keep :
  wf_view v -> (forall i, ~ occurs_at (content v) sep i) ->
  scan sep keep (ptr (span v)) (content v) = [after_n v 0].
Proof.
  intros Hwf Hno.
  pose proof (scan_tail v sep keep 0 Hwf ltac:(lia)) as H.
  change (Z.of_nat 0) with 0 in H. rewrite Z.add_0_r, drop_0 in H.
  apply H. now apply absent_find.
Qed.

Lemma after_n_zero_bytes v :
  wf_view v -> span_bytes (owner v) (after_n v 0) = content v.
Proof.
  intros Hwf. pose proof (after_n_bytes v 0 Hwf) as H.
  change (Z.of_nat 0) with 0 in H. now rewrite drop_0 in H.
Qed.

(** X17: on a view in which the separator does not occur, the empty view
    among them, [split] returns a single part that reads the whole view,
    under every cap and on both of its paths. *)
Theorem split_without_separator fuel v separator maxsplit keepseparator :
  wf_view v -> separator <> [] -> sv_size separator <= ssize_max_k ->
  0 <= maxsplit <= size_max_k ->
  (length (content v) <= fuel)%nat ->
  (forall i, ~ occurs_at (content v) separator i) ->
  exists c, split fuel v separator maxsplit keepseparator = Some (Ok c)
    /\ whole_ c = v
    /\ parts_bytes c = [content v].
Proof.
  intros Hwf Hsep Hsz Hmax Hfuel Hno. pose proof (content_length v Hwf) as Hc.
  pose proof (wf_view_len v Hwf) as Hl.
  exists {| whole_ := v; parts_ := [after_n v 0] |}.
  split; [|split; [reflexivity|]].
  2:{ unfold parts_bytes. cbn [whole_ parts_ map]. now rewrite after_n_zero_bytes. }
  rewrite <- (scan_whole_absent v separator keepseparator Hwf Hno).
  destruct (split_delegates separator maxsplit) eqn:Hdel.
  - (* the shortcut: [splitlines] counts no separator *)
    unfold split. rewrite Hdel. f_equal.
    unfold split_delegates in Hdel. apply andb_true_iff in Hdel.
    destruct Hdel as [H1 H2].
    destruct separator as [|b [|b' sep]]; [congruence| |];
      [|unfold sv_size in H1; cbn [length] in H1; absurd_arith].
    unfold front. cbn [hd]. apply splitlines_scan; [assumption|].
    rewrite count_byte_in_absent
      by (rewrite <- find_seq_in_single; now apply absent_find).
    bool_to_prop. subst maxsplit. vm_compute. discriminate.
  - destruct (Z_lt_le_dec maxsplit 1) as [Hcap|Hcap].
    + (* a cap of zero: the loop is not entered and the rest is the part *)
      rewrite (scan_whole_absent v separator keepseparator Hwf Hno).
      unfold split. rewrite Hdel.
      rewrite split_loop_exit; [reflexivity|].
      apply andb_false_iff. right. unfold vec_size. cbn [length].
      change (to_size (Z.of_nat 0 + 1)) with 1. apply Z.ltb_ge. lia.
    + apply split_scan; try assumption; [lia|].
      rewrite (scan_whole_absent v separator keepseparator Hwf Hno).
      cbn [length]. lia.
Qed.

Lemma split_without_separator_witness :
  let v := str "hello"%string in
  exists c, split 5 v (bytes_of ", "%string) 3 true = Some (Ok c)
    /\ whole_ c = v
    /\ parts_bytes c = [content v].
Proof.
  intros v. apply (split_without_separator 5 v (bytes_of ", "%string) 3 true).
  - apply wf_view_owner. vm_compute. discriminate.
  - discriminate.
  - vm_compute. discriminate.
  - vm_compute. split; discriminate.
  - vm_compute. lia.
  - intros i H. unfold occurs_at in H.
    destruct i as [|[|[|[|[|i]]]]]; simpl in H; try discriminate H.
    rewrite drop_nil in H. discriminate H.
Defined.

(** X18: with the cap left at its default, [split] at a one-byte separator
    and [splitlines] at that byte both return, and return the same
    collection, although [split] runs its own loop. *)
Theorem split_default_same_as_splitlines fuel v b keep :
  wf_view v -> (length (content v) <= fuel)%nat ->
  exists c, splitlines v keep b size_max_k = Ok c
    /\ split fuel v [b] size_max_k keep = Some (Ok c).
Proof.
  intros Hwf Hfuel. pose proof (wf_view_len v Hwf) as Hl.
  pose proof (content_length v Hwf) as Hc.
  rewrite split_matches_splitlines by assumption.
  rewrite splitlines_scan; [eexists; split; reflexivity | assumption |].
  pose proof (count_byte_in_le (content v) b). size_arith.
Qed.

Lemma split_default_same_as_splitlines_witness :
  exists c, splitlines (str "a,bb,,c"%string) true ","%byte size_max_k = Ok c
    /\ split 7 (str "a,bb,,c"%string) [","%byte] size_max_k true = Some (Ok c).
Proof.
  apply (split_default_same_as_splitlines 7 (str "a,bb,,c"%string) ","%byte true).
  - apply wf_view_owner. vm_compute. discriminate.
  - vm_compute. lia.
Defined.

(** ** Slicing and walking a collection *)

Lemma spans_sub_ordered c start end_ :
  vec_size (parts_ c) <= ssize_max_k -> 0 <= start <= end_ ->
  spans_sub c start end_ =
    Ok {| whole_ := whole_ c;
          parts_ :=
            take (Z.to_nat (Z.min end_ (vec_size (parts_ c))
                            - Z.min start (vec_size (parts_ c))))
              (drop (Z.to_nat (Z.min start (vec_size (parts_ c)))) (parts_ c)) |}.
Proof.
  intros Hs Hse. assert (0 <= vec_size (parts_ c)) by (unfold vec_size; lia).
  unfold spans_sub. rewrite unsigned_slice_ordered by lia. cbn [bind offset length_].
  destruct (_ <=? _) eqn:E; [reflexivity | absurd_arith].
Qed.

(** X19: for [0 <= start <= end], [sub] on a collection returns the parts
    from the clamped start up to the clamped end, in their order and on the
    same view. *)
Theorem spans_sub_slices c start end_ :
  vec_size (parts_ c) <= ssize_max_k -> 0 <= start <= end_ ->
  exists c', spans_sub c start end_ = Ok c'
    /\ whole_ c' = whole_ c
    /\ vec_size (parts_ c')
       = Z.min end_ (vec_size (parts_ c)) - Z.min start (vec_size (parts_ c))
    /\ forall i, (i < length (parts_ c'))%nat ->
         parts_ c' !! i = parts_ c !! (Z.to_nat start + i)%nat.
Proof.
  intros Hs Hse. rewrite spans_sub_ordered by assumption.
  eexists. split; [reflexivity|]. cbn [whole_ parts_]. split; [reflexivity|].
  assert (Hlen : length
            (take (Z.to_nat (Z.min end_ (vec_size (parts_ c))
                             - Z.min start (vec_size (parts_ c))))
               (drop (Z.to_nat (Z.min start (vec_size (parts_ c)))) (parts_ c)))
          = Z.to_nat (Z.min end_ (vec_size (parts_ c))
                      - Z.min start (vec_size (parts_ c)))).
  { rewrite length_take, length_drop. unfold vec_size. lia. }
  split.
  - unfold vec_size at 1. rewrite Hlen. unfold vec_size. lia.
  - intros i Hi. rewrite Hlen in Hi.
    rewrite lookup_take_lt by lia. rewrite lookup_drop.
    f_equal. unfold vec_size in *. lia.
Qed.

Lemma spans_sub_slices_witness :
  let c := {| whole_ := str "a,b,c"%string;
              parts_ := [ {| ptr := 4096; len := 1 |}; {| ptr := 4098; len := 1 |};
                          {| ptr := 4100; len := 1 |} ] |} in
  exists c', spans_sub c 1 7 = Ok c'
    /\ whole_ c' = whole_ c
    /\ vec_size (parts_ c')
       = Z.min 7 (vec_size (parts_ c)) - Z.min 1 (vec_size (parts_ c))
    /\ forall i, (i < length (parts_ c'))%nat ->
         parts_ c' !! i = parts_ c !! (Z.to_nat 1 + i)%nat.
Proof.
  intros c. apply (spans_sub_slices c 1 7).
  - vm_compute. discriminate.
  - lia.
Defined.

(** X20: [sub] on a collection from 0 to its length, or to anything beyond
    it, returns the collection itself. *)
Theorem spans_sub_whole c end_ :
  vec_size (parts_ c) <= ssize_max_k -> vec_size (parts_ c) <= end_ ->
  spans_sub c 0 end_ = Ok c.
Proof.
  intros Hs He. assert (0 <= vec_size (parts_ c)) by (unfold vec_size; lia).
  rewrite spans_sub_ordered by first [assumption | lia].
  rewrite Z.min_r, Z.min_l by lia. rewrite Z.sub_0_r.
  change (Z.to_nat 0) with 0%nat. rewrite drop_0.
  rewrite take_ge by (unfold vec_size; lia). now destruct c.
Qed.

Lemma spans_sub_whole_witness :
  let c := {| whole_ := str "a,b"%string;
              parts_ := [ {| ptr := 4096; len := 1 |}; {| ptr := 4098; len := 1 |} ] |} in
  spans_sub c 0 ssize_max_k = Ok c.
Proof.
  intros c. apply (spans_sub_whole c ssize_max_k); vm_compute; discriminate.
Defined.

(** X21: on a collection, a request with [end] below both [start] and the
    number of parts does not give an empty collection: the wrapped length of
    the resolver makes the range of parts to copy reach beyond the vector. *)
Theorem spans_sub_reversed c start end_ :
  vec_size (parts_ c) <= ssize_max_k ->
  0 <= end_ -> end_ < start -> end_ < vec_size (parts_ c) ->
  spans_sub c start end_ = Undefined.
Proof.
  intros Hs He Hlt Hn. assert (0 <= vec_size (parts_ c)) by (unfold vec_size; lia).
  unfold spans_sub. rewrite unsigned_slice_reversed by lia.
  cbn [bind offset length_].
  destruct (_ <=? _) eqn:E; [absurd_arith | reflexivity].
Qed.

Lemma spans_sub_reversed_witness :
  spans_sub {| whole_ := str "a,b,c"%string;
               parts_ := [ {| ptr := 4096; len := 1 |}; {| ptr := 4098; len := 1 |};
                           {| ptr := 4100; len := 1 |} ] |} 2 1
  = Undefined.
Proof.
  apply spans_sub_reversed; vm_compute; try discriminate; reflexivity.
Defined.

Lemma spans_at_lookup c k p :
  vec_size (parts_ c) <= ssize_max_k -> parts_ c !! k = Some p ->
  spans_at c (Z.of_nat k) = Ok (py_subspan_t (whole_ c) p).
Proof.
  intros Hs Hp. pose proof (lookup_lt_Some _ _ _ Hp) as Hk.
  unfold spans_at. rewrite spans_size_small by assumption.
  rewrite unsigned_offset_in_range by (unfold vec_size in *; lia).
  destruct (0 <=? Z.of_nat k) eqn:E; [|absurd_arith].
  cbn [bind]. now rewrite (vec_get_lookup _ _ _ Hp).
Qed.

(** X22: element access composes with [sub] on a collection: the [i]-th part
    of the sub-collection from [a] to [b] is the [(a + i)]-th part of the
    collection. *)
Theorem spans_at_of_sub c a b i :
  vec_size (parts_ c) <= ssize_max_k ->
  0 <= a <= b -> b <= vec_size (parts_ c) -> 0 <= i < b - a ->
  exists c' s, spans_sub c a b = Ok c'
    /\ spans_at c' i = Ok s
    /\ spans_at c (a + i) = Ok s.
Proof.
  intros Hs Hab Hb Hi. rewrite spans_sub_ordered by assumption.
  rewrite Z.min_l, Z.min_l by lia.
  destruct (lookup_lt_is_Some_2 (parts_ c) (Z.to_nat (a + i))) as [p Hp];
    [unfold vec_size in *; lia|].
  exists {| whole_ := whole_ c;
            parts_ := take (Z.to_nat (b - a)) (drop (Z.to_nat a) (parts_ c)) |}.
  exists (py_subspan_t (whole_ c) p). split; [reflexivity|]. split.
  - replace i with (Z.of_nat (Z.to_nat i)) by lia.
    apply (spans_at_lookup {| whole_ := whole_ c; parts_ := _ |}).
    + cbn [parts_]. unfold vec_size in *. rewrite length_take, length_drop. lia.
    + cbn [parts_]. rewrite lookup_take_lt by lia. rewrite lookup_drop.
      rewrite <- Hp. f_equal. lia.
  - replace (a + i) with (Z.of_nat (Z.to_nat (a + i))) by lia.
    now apply spans_at_lookup.
Qed.

Lemma spans_at_of_sub_witness :
  let c := {| whole_ := str "a,b,c"%string;
              parts_ := [ {| ptr := 4096; len := 1 |}; {| ptr := 4098; len := 1 |};
                          {| ptr := 4100; len := 1 |} ] |} in
  exists c' s, spans_sub c 1 3 = Ok c'
    /\ spans_at c' 1 = Ok s
    /\ spans_at c (1 + 1) = Ok s.
Proof.
  intros c. apply (spans_at_of_sub c 1 3 1); try lia.
  - vm_compute. discriminate.
  - vm_compute. discriminate.
Defined.

Lemma spans_walk_from c :
  vec_size (parts_ c) <= ssize_max_k ->
  forall rest pre, parts_ c = pre ++ rest ->
    spans_walk (length rest) {| py_spans_ := c; idx_ := Z.of_nat (length pre) |}
      (spans_end c)
    = Some (Ok (map (py_subspan_t (whole_ c)) rest)).
Proof.
  intros Hs. induction rest as [|p rest IH]; intros pre Hparts.
  - cbn [length spans_walk]. unfold iterator_eq, spans_end, vec_size. cbn [idx_].
    rewrite Hparts, app_nil_r, Z.eqb_refl. reflexivity.
  - assert (Hlen : vec_size (parts_ c) = Z.of_nat (length pre) + 1 + Z.of_nat (length rest)).
    { unfold vec_size. rewrite Hparts, length_app. cbn [length]. lia. }
    cbn [length spans_walk]. unfold iterator_eq at 1, spans_end at 1. cbn [idx_].
    destruct (Z.of_nat (length pre) =? vec_size (parts_ c)) eqn:E; [absurd_arith|].
    unfold iterator_deref, iterator_incr. cbn [py_spans_ idx_].
    rewrite to_ssize_small by size_arith.
    rewrite (spans_at_lookup c (length pre) p Hs)
      by (rewrite Hparts; apply list_lookup_middle; reflexivity).
    rewrite to_size_small by size_arith.
    replace (Z.of_nat (length pre) + 1) with (Z.of_nat (length (pre ++ [p])))
      by (rewrite length_app; cbn [length]; lia).
    rewrite IH by (rewrite Hparts, <- app_assoc; reflexivity).
    reflexivity.
Qed.

(** X23: walking a collection from [begin] to [end] yields one sub-view per
    part, in the order of the parts, each pointing back at the view that was
    split; no step of the walk throws. *)
Theorem spans_walk_yields_parts c :
  vec_size (parts_ c) <= ssize_max_k ->
  spans_walk (length (parts_ c)) (spans_begin c) (spans_end c)
  = Some (Ok (map (py_subspan_t (whole_ c)) (parts_ c))).
Proof.
  intros Hs. apply (spans_walk_from c Hs (parts_ c) []). reflexivity.
Qed.

Lemma spans_walk_yields_parts_witness :
  let c := {| whole_ := str "a,b"%string;
              parts_ := [ {| ptr := 4096; len := 1 |}; {| ptr := 4098; len := 1 |} ] |} in
  spans_walk (length (parts_ c)) (spans_begin c) (spans_end c)
  = Some (Ok (map (py_subspan_t (whole_ c)) (parts_ c))).
Proof.
  intros c. apply (spans_walk_yields_parts c). vm_compute. discriminate.
Defined.

Lemma view_walk_from v :
  wf_view v ->
  forall rest pre, content v = pre ++ rest ->
    view_walk (length rest) (owner v) (view_begin v + Z.of_nat (length pre)) (view_end v)
    = Some (Ok rest).
Proof.
  intros Hwf. pose proof (content_length v Hwf) as Hc.
  induction rest as [|b rest IH]; intros pre Hcont.
  - cbn [length view_walk]. unfold view_end.
    rewrite Hcont, app_nil_r in Hc. rewrite Hc, Z.eqb_refl. reflexivity.
  - assert (Hlen : len (span v) = Z.of_nat (length pre) + 1 + Z.of_nat (length rest)).
    { rewrite <- Hc, Hcont, length_app. cbn [length]. lia. }
    cbn [length view_walk]. unfold view_end at 1.
    destruct (view_begin v + Z.of_nat (length pre) =? view_begin v + len (span v)) eqn:E;
      [absurd_arith|].
    unfold view_begin at 1.
    rewrite (byte_at_lookup v (length pre) b Hwf)
      by (rewrite Hcont; apply list_lookup_middle; reflexivity).
    replace (view_begin v + Z.of_nat (length pre) + 1)
      with (view_begin v + Z.of_nat (length (pre ++ [b])))
      by (rewrite length_app; cbn [length]; lia).
    rewrite IH by (rewrite Hcont, <- app_assoc; reflexivity).
    reflexivity.
Qed.

(** X24: walking a view from [begin] to [end] reads exactly the bytes of the
    view, in order, and never reads outside the owner. *)
Theorem view_walk_reads_content v :
  wf_view v ->
  view_walk (length (content v)) (owner v) (view_begin v) (view_end v)
  = Some (Ok (content v)).
Proof.
  intros Hwf. pose proof (view_walk_from v Hwf (content v) [] eq_refl) as H.
  cbn [length] in H. change (Z.of_nat 0) with 0 in H. now rewrite Z.add_0_r in H.
Qed.

Lemma view_walk_reads_content_witness :
  let v := py_subspan_t (str "hello world"%string) {| ptr := 4098; len := 3 |} in
  view_walk (length (content v)) (owner v) (view_begin v) (view_end v)
  = Some (Ok (content v)).
Proof.
  intros v. apply (view_walk_reads_content v).
  split; [|vm_compute; discriminate].
  unfold in_bounds. vm_compute. repeat split; discriminate.
Defined.

(** ** The two cutters of a view *)

(** X25: [after_n] reads the bytes of the view from the offset on, stays
    inside the view, and is the empty [span_t {}] once the offset reaches the
    length. *)
Theorem after_n_is_suffix v k :
  wf_view v ->
  span_bytes (owner v) (after_n v (Z.of_nat k)) = drop k (content v)
  /\ part_in_view v (after_n v (Z.of_nat k))
  /\ (len (span v) <= Z.of_nat k -> after_n v (Z.of_nat k) = empty_span).
Proof.
  intros Hwf. split; [now apply after_n_bytes|]. split; [apply after_n_in_view|].
  intros Hk. unfold after_n.
  destruct (Z.of_nat k <? len (span v)) eqn:E; [absurd_arith | reflexivity].
Qed.

Lemma after_n_is_suffix_witness :
  let v := str "hello"%string in
  span_bytes (owner v) (after_n v (Z.of_nat 2)) = drop 2 (content v)
  /\ part_in_view v (after_n v (Z.of_nat 2))
  /\ (len (span v) <= Z.of_nat 2 -> after_n v (Z.of_nat 2) = empty_span).
Proof.
  intros v. apply (after_n_is_suffix v 2).
  apply wf_view_owner. vm_compute. discriminate.
Defined.

(** X26: for [tail] below the length, [before_n] returns a span of
    [len - tail] bytes that starts [len - tail] bytes into the view; it stays
    inside the view only when [tail] is at least half the length, and
    otherwise reaches past the end of the view. *)
Theorem before_n_reach v tail :
  wf_view v -> 0 <= tail < len (span v) ->
  ptr (before_n v tail) = ptr (span v) + (len (span v) - tail)
  /\ len (before_n v tail) = len (span v) - tail
  /\ (part_in_view v (before_n v tail) <-> len (span v) <= 2 * tail).
Proof.
  intros Hwf Ht. unfold before_n.
  destruct (tail <? len (span v)) eqn:E; [|absurd_arith].
  cbn [ptr len]. split; [lia|]. split; [reflexivity|].
  unfold part_in_view. cbn [ptr len]. split.
  - intros [Hempty|H]; [|lia].
    unfold empty_span in Hempty. injection Hempty as _ Hlen. lia.
  - intros H. right. lia.
Qed.

Lemma before_n_reach_witness :
  let v := str "hello"%string in
  ptr (before_n v 1) = ptr (span v) + (len (span v) - 1)
  /\ len (before_n v 1) = len (span v) - 1
  /\ (part_in_view v (before_n v 1) <-> len (span v) <= 2 * 1).
Proof.
  intros v. apply (before_n_reach v 1).
  - apply wf_view_owner. vm_compute. discriminate.
  - vm_compute. split; [discriminate | reflexivity].
Defined.

(** ** More on resolved ranges, positions and kept separators *)

(** X27: for [0 <= start <= end] the range resolver clamps both bounds to
    the length: the offset is [min(start, length)], the length of the range
    is [min(end, length) - min(start, length)], the range ends at or before
    the length, and resolving the range against its own length returns it
    unchanged. *)
Theorem unsigned_slice_clamps length start end_ :
  0 <= length <= ssize_max_k -> 0 <= start <= end_ ->
  exists s, unsigned_slice length start end_ = Ok s
    /\ offset s = Z.min start length
    /\ length_ s = Z.min end_ length - Z.min start length
    /\ 0 <= length_ s
    /\ offset s + length_ s <= length
    /\ unsigned_slice (length_ s) 0 (length_ s)
       = Ok {| offset := 0; length_ := length_ s |}.
Proof.
  intros Hl Hs. rewrite unsigned_slice_ordered by assumption.
  eexists. split; [reflexivity|]. cbn [offset length_].
  repeat (split; [lia|]).
  rewrite unsigned_slice_ordered by size_arith. do 2 f_equal; lia.
Qed.

Lemma unsigned_slice_clamps_witness :
  exists s, unsigned_slice 10 3 25 = Ok s
    /\ offset s = Z.min 3 10
    /\ length_ s = Z.min 25 10 - Z.min 3 10
    /\ 0 <= length_ s
    /\ offset s + length_ s <= 10
    /\ unsigned_slice (length_ s) 0 (length_ s)
       = Ok {| offset := 0; length_ := length_ s |}.
Proof.
  apply (unsigned_slice_clamps 10 3 25); unfold ssize_max_k; lia.
Defined.

(** X28: when [find] answers something other than -1, adding the clamped
    start to the answer gives a place in the view where the needle sits, and
    the needle ends there at or before the clamped end. *)
Theorem find_gives_position_in_view v needle start end_ r :
  wf_view v -> needle <> [] -> 0 <= start <= end_ ->
  find v needle start end_ = Ok r -> r <> -1 ->
  0 <= r
  /\ Z.min start (len (span v)) + r + sv_size needle <= Z.min end_ (len (span v))
  /\ occurs_at (content v) needle (Z.to_nat (Z.min start (len (span v)) + r)).
Proof.
  intros Hwf Hn Hs Hfind Hr. pose proof (wf_view_len v Hwf) as Hl.
  unfold find in Hfind.
  destruct (sv_size needle =? 0) eqn:E0.
  { destruct needle; [congruence|]. unfold sv_size in E0. cbn [length] in E0.
    absurd_arith. }
  destruct (subspan (span v) start end_) as [part| |] eqn:Hsub;
    try (rewrite subspan_ordered in Hsub by lia; discriminate).
  destruct (find_offset v needle start end_ part) as [Hoff Hlen]; try assumption.
  cbn [bind] in Hfind. rewrite Hoff in Hfind. cbn [bind] in Hfind.
  rewrite Hlen in Hfind.
  pose proof (find_seq_in_le (slice v start end_) needle) as Hle.
  pose proof (slice_length v start end_ Hwf Hs) as Hsl.
  destruct (Z.of_nat (find_seq_in (slice v start end_) needle)
            =? Z.of_nat (length (slice v start end_))) eqn:E;
    cbn [negb] in Hfind; injection Hfind as Hfind; [congruence|].
  bool_to_prop. rewrite to_ssize_small in Hfind by size_arith. subst r.
  pose proof (found_fits (slice v start end_) needle ltac:(lia)) as Hfit.
  pose proof (find_seq_in_found (slice v start end_) needle ltac:(lia)) as Hocc.
  split; [lia|]. split; [unfold sv_size; lia|].
  unfold slice in Hocc at 1. apply occurs_in_take in Hocc; [|assumption].
  destruct Hocc as [Hocc _]. unfold occurs_at in *.
  rewrite drop_drop in Hocc. etransitivity; [|exact Hocc]. do 2 f_equal. lia.
Qed.

Lemma find_gives_position_in_view_witness :
  let v := str "hello world"%string in
  0 <= 2
  /\ Z.min 5 (len (span v)) + 2 + sv_size (bytes_of "o"%string)
     <= Z.min ssize_max_k (len (span v))
  /\ occurs_at (content v) (bytes_of "o"%string) (Z.to_nat (Z.min 5 (len (span v)) + 2)).
Proof.
  intros v.
  apply (find_gives_position_in_view v (bytes_of "o"%string) 5 ssize_max_k 2).
  - apply wf_view_owner. vm_compute. discriminate.
  - discriminate.
  - vm_compute. split; discriminate.
  - reflexivity.
  - discriminate.
Defined.

(** With the separators kept, every part of the reference scan but the
    last ends with the separator. *)
Lemma scan_kept_separator v sep :
  wf_view v -> sep <> [] ->
  forall n ls, (length (content v) - ls <= n)%nat -> (ls <= length (content v))%nat ->
    forall i part,
      scan sep true (ptr (span v) + Z.of_nat ls) (drop ls (content v)) !! i = Some part ->
      (S i < length (scan sep true (ptr (span v) + Z.of_nat ls) (drop ls (content v))))%nat ->
      exists body, span_bytes (owner v) part = body ++ sep.
Proof.
  intros Hwf Hsep. pose proof (content_length v Hwf) as Hc.
  assert (Hs1 : (1 <= length sep)%nat) by (destruct sep; [congruence | simpl; lia]).
  induction n as [|n IH]; intros ls Hn Hls i part.
  - rewrite drop_ge by lia. rewrite scan_nil. cbn [length]. lia.
  - pose proof (length_drop (content v) ls) as Hd.
    destruct (scan_cases sep (drop ls (content v))) as [E|[[Ht Hf]|Hf]].
    + rewrite E, scan_nil. cbn [length]. lia.
    + rewrite scan_absent by assumption. cbn [length]. lia.
    + pose proof (found_fits _ _ Hf) as Hfit.
      pose proof (find_seq_in_found _ _ Hf) as Hocc.
      rewrite scan_found by assumption.
      set (t := drop ls (content v)) in *. set (off := find_seq_in t sep) in *.
      destruct i as [|i].
      * intros [= <-] _. exists (take off t).
        rewrite span_bytes_within
          by first [assumption | unfold sv_size; simpl Z.b2z; lia].
        rewrite Nat2Z.id. fold t.
        match goal with |- take ?k t = _ =>
          replace k with (off + length sep)%nat by (unfold sv_size; simpl; lia)
        end.
        rewrite <- take_take_drop. f_equal. exact Hocc.
      * cbn [lookup list_lookup length]. unfold t. rewrite drop_drop.
        replace (ptr (span v) + Z.of_nat ls + Z.of_nat off + sv_size sep)
          with (ptr (span v) + Z.of_nat (ls + (off + length sep)))
          by (unfold sv_size; lia).
        intros Hp Hlt. apply (IH (ls + (off + length sep))%nat ltac:(lia) ltac:(lia) i part Hp).
        lia.
Qed.

Lemma scan_whole_kept_separator v sep i part :
  wf_view v -> sep <> [] ->
  scan sep true (ptr (span v)) (content v) !! i = Some part ->
  (S i < length (scan sep true (ptr (span v)) (content v)))%nat ->
  exists body, span_bytes (owner v) part = body ++ sep.
Proof.
  intros Hwf Hsep.
  pose proof (scan_kept_separator v sep Hwf Hsep (length (content v)) 0%nat
                ltac:(lia) ltac:(lia) i part) as H.
  change (Z.of_nat 0) with 0 in H. now rewrite Z.add_0_r, drop_0 in H.
Qed.

(** X29: with the separators kept, every part but the last ends with the
    separator: in what [split] returns under the default cap, and in what
    any call of [splitlines] returns. *)
Theorem kept_separator_ends_parts fuel v separator :
  wf_view v -> separator <> [] -> sv_size separator <= ssize_max_k ->
  (length (content v) <= fuel)%nat ->
  (exists c, split fuel v separator size_max_k true = Some (Ok c)
     /\ forall i part, parts_ c !! i = Some part -> (S i < length (parts_ c))%nat ->
          exists body, span_bytes (owner v) part = body ++ separator)
  /\ (forall b maxsplit c, splitlines v true b maxsplit = Ok c ->
        forall i part, parts_ c !! i = Some part -> (S i < length (parts_ c))%nat ->
          exists body, span_bytes (owner v) part = body ++ [b]).
Proof.
  intros Hwf Hsep Hsz Hfuel. pose proof (content_length v Hwf) as Hc.
  pose proof (wf_view_len v Hwf) as Hl. split.
  - eexists. split.
    + apply split_scan; try assumption.
      * reflexivity.
      * apply split_delegates_default.
      * pose proof (scan_length_le separator true Hsep
                      (length (content v)) (ptr (span v)) (content v) ltac:(lia)).
        size_arith.
    + cbn [parts_]. intros i part. now apply scan_whole_kept_separator.
  - intros b maxsplit c Hsl. rewrite (splitlines_ok_scan _ _ _ _ _ Hwf Hsl).
    cbn [parts_]. intros i part. now apply scan_whole_kept_separator.
Qed.

Lemma kept_separator_ends_parts_witness :
  let v := str "a--b--c"%string in
  (exists c, split 7 v (bytes_of "--"%string) size_max_k true = Some (Ok c)
     /\ forall i part, parts_ c !! i = Some part -> (S i < length (parts_ c))%nat ->
          exists body, span_bytes (owner v) part = body ++ bytes_of "--"%string)
  /\ (forall b maxsplit c, splitlines v true b maxsplit = Ok c ->
        forall i part, parts_ c !! i = Some part -> (S i < length (parts_ c))%nat ->
          exists body, span_bytes (owner v) part = body ++ [b]).
Proof.
  intros v. apply (kept_separator_ends_parts 7 v (bytes_of "--"%string)).
  - apply wf_view_owner. vm_compute. discriminate.
  - discriminate.
  - vm_compute. discriminate.
  - vm_compute. lia.
Defined.

(** ** Searching between reversed bounds *)




